(** * Schema registry: subject matcher, schema cache and validation dispatcher

    A shallow embedding of [schema_registry.go].  Go strings and byte slices
    are [string]s (sequences of 8-bit characters), the [uint64] revision is
    an [N], the [schemas] map is a [gmap string Schema], and the handlers are
    functions from the registry state and a request to the new state and the
    trace of observable events (replies, publications, log lines, lock
    operations and accesses to the [schemas] map). *)

From Stdlib Require Import NArith Ascii String List Lia DecimalString DecimalPos DecimalN.
From stdpp Require Import base option list strings gmap.

Open Scope string_scope.
Open Scope list_scope.

(** ** Go's [strings] package, as far as the registry uses it *)

Module strings.

(** [strings.Split(s, ".")]: the tokens between the separators; a string
    with [n] separators has [n + 1] tokens, so the result is never empty
    (the empty string has the single token [""]). *)
Fixpoint Split (s : string) (sep : ascii) : list string :=
  match s with
  | EmptyString => [EmptyString]
  | String c s' =>
      if Ascii.eqb c sep then EmptyString :: Split s' sep
      else match Split s' sep with
           | tok :: toks => String c tok :: toks
           | [] => [String c EmptyString]
           end
  end.

(** [strings.Join(elems, sep)]. *)
Fixpoint Join (elems : list string) (sep : string) : string :=
  match elems with
  | [] => EmptyString
  | [e] => e
  | e :: rest => e +:+ sep +:+ Join rest sep
  end.

End strings.

Definition dot : ascii := "."%char.

(** A token is a string without the separator in it. *)
Fixpoint is_token (s : string) : bool :=
  match s with
  | EmptyString => true
  | String c s' => negb (Ascii.eqb c dot) && is_token s'
  end.

(** ** The subject matcher *)

(** The body of the [for i, wpart := range wparts] loop of [SubjectsMatch],
    entered at index [i] with the pattern tokens from [i] on still to visit.
    The literal's tokens are read by index, as the source does. *)
Fixpoint match_from (lparts : list string) (i : nat) (wparts : list string) : bool :=
  match wparts with
  | [] => true
  | wpart :: rest =>
      if (length lparts <=? i)%nat then false
      else if String.eqb wpart "*" then match_from lparts (S i) rest
      else if String.eqb wpart ">" then true
      else if negb (String.eqb (nth i lparts "") wpart) then false
      else match_from lparts (S i) rest
  end.

Definition SubjectsMatch (literal wildcard : string) : bool :=
  if String.eqb literal wildcard then true
  else
    let lparts := strings.Split literal dot in
    let wparts := strings.Split wildcard dot in
    match_from lparts 0 wparts.

(** The same walk on the two token lists side by side: what [match_from]
    computes once the literal tokens before index [i] are dropped. *)
Fixpoint walk (ls ws : list string) {struct ws} : bool :=
  match ws with
  | [] => true
  | w :: ws' =>
      match ls with
      | [] => false
      | l :: ls' =>
          if String.eqb w "*" then walk ls' ws'
          else if String.eqb w ">" then true
          else if String.eqb l w then walk ls' ws'
          else false
      end
  end.

(** One pattern token against the literal token at the same position. *)
Definition token_matches (w l : string) : Prop := w = "*" ∨ w = l.

(** ** The external collaborators: message bus, key/value store, codecs *)

(** A Go call that returns a value and an [error]; [Err] carries the text of
    [err.Error()]. *)
Inductive result (T : Type) : Type :=
  | Ok (v : T)
  | Err (e : string).
Arguments Ok {T} v.
Arguments Err {T} e.

Module nats.

(** [nats.Msg]; a [nil] header map is [None]. *)
Record Msg := mkMsg {
  Subject : string;
  Reply : string;
  Data : string;
  Header : option (gmap string (list string))
}.

(** [Header.Set]: the values under [key] become the single [value]. *)
Definition Header_Set (key value : string) (h : gmap string (list string))
  : gmap string (list string) := <[key := [value]]> h.

Inductive KeyValueOp := KeyValuePut | KeyValueDelete | KeyValuePurge.

(** What the registry reads of a [nats.KeyValueEntry]. *)
Record KeyValueEntry := mkEntry {
  Key : string;
  Value : string;
  Revision : N;
  Operation : KeyValueOp
}.

(** The part of the [nats.KeyValue] interface that the registry calls,
    over a store state [KV]. *)
Class KeyValue (KV : Type) := {
  Create : KV -> string -> string -> KV * result N;
  Put : KV -> string -> string -> KV * result N;
  Delete : KV -> string -> KV * option string
}.

End nats.

Module micro.

(** What the handlers read of a [micro.Request]. *)
Record Request := mkRequest {
  Subject : string;
  Data : string
}.

End micro.

(** ** Data model *)

Record Schema := mkSchema {
  Name : string;
  Subject : string;
  Revision : N;
  Type_ : string;
  Body : string
}.

Definition set_Name (name : string) (s : Schema) : Schema :=
  {| Name := name; Subject := Subject s; Revision := Revision s;
     Type_ := Type_ s; Body := Body s |}.

Definition set_Revision (rev : N) (s : Schema) : Schema :=
  {| Name := Name s; Subject := Subject s; Revision := rev;
     Type_ := Type_ s; Body := Body s |}.

Record SchemaRegistry (KV : Type) := mkRegistry {
  kv : KV;
  schemas : gmap string Schema
}.
Arguments mkRegistry {KV} kv schemas.
Arguments kv {KV} s.
Arguments schemas {KV} s.

Definition NewSchemaRegistry {KV : Type} (store : KV) : SchemaRegistry KV :=
  {| kv := store; schemas := ∅ |}.

(** What [gojsonschema.Validate] hands back when it could run: [Valid()]
    and the texts of [Errors()]. *)
Record ValidationResult := mkResult {
  Valid : bool;
  Errors : list string
}.

(** The library calls whose result the registry only passes on. *)
Class Env := {
  json_Unmarshal : string -> result Schema;
  json_Marshal : Schema -> result string;
  gojsonschema_Validate : string -> string -> result ValidationResult;
  strconv_Quote : string -> string;
  nc_PublishMsg : nats.Msg -> option string
}.

(** [fmt.Sprintf("%d", n)] for an unsigned [n]. *)
Definition Sprintf_d (n : N) : string := NilZero.string_of_uint (N.to_uint n).

(** ** Observable events *)

Inductive Event :=
  | Lock                              (* reg.schemasMu.Lock() *)
  | Unlock
  | RLock
  | RUnlock
  | MapLookup (name : string)         (* reg.schemas[name] read *)
  | MapRange                          (* range reg.schemas *)
  | MapStore (name : string)          (* reg.schemas[name] = ... *)
  | Log (line : string)               (* log.Println, log.Printf *)
  | Println (line : string)           (* fmt.Println *)
  | ReqError (code description : string)   (* r.Error(code, description, nil) *)
  | ReqRespond (data : string)        (* r.Respond(data) *)
  | ReqRespondJSON (schema : Schema)  (* r.RespondJSON(schema) *)
  | MsgRespond (data : string)        (* m.Respond(data) *)
  | PublishMsg (msg : nats.Msg).      (* reg.nc.PublishMsg(msg) *)

(** What the goroutine of [Watch] can receive in one turn of its [select]. *)
Inductive Selected :=
  | CtxDone
  | ChanClosed
  | Update (entry : option nats.KeyValueEntry).

Inductive Outcome := Returned | Panicked.

(** The result of one call of [ValidatePayload]: how it ended, the header
    map of the inbound message afterwards (the outgoing message shares it),
    and the events in order. *)
Record Dispatch := mkDispatch {
  outcome : Outcome;
  inbound_header : option (gmap string (list string));
  trace : list Event
}.

(** ** The registry *)

Section Registry.

Context `{env : Env} {KV : Type} `{store : !nats.KeyValue KV}.

(** The name a request addresses: [parts[len(parts)-1]] of its subject. *)
Definition request_name (r : micro.Request) : string :=
  let parts := strings.Split (micro.Subject r) dot in
  nth (length parts - 1) parts "".

(** One turn of the loop of [Watch] on a received update. *)
Definition watch_update (entry : option nats.KeyValueEntry)
    (reg : SchemaRegistry KV) : SchemaRegistry KV * list Event :=
  match entry with
  | None => (reg, [Log "Loaded initial schemas"])
  | Some entry =>
      match json_Unmarshal (nats.Value entry) with
      | Err err => (reg, [Log ("error unmarshaling schema: " +:+ err)])
      | Ok schema =>
          let schema := set_Revision (nats.Revision entry) schema in
          ({| kv := kv reg;
              schemas := <[Name schema := schema]> (schemas reg) |},
           [Lock; MapStore (Name schema); Unlock;
            Log ("Loaded schema: " +:+ strconv_Quote (Name schema)
                 +:+ " revision " +:+ Sprintf_d (Revision schema))])
      end
  end.

(** The goroutine of [Watch] on what its [select] receives, in order; it
    returns on a cancelled context or a closed channel and otherwise
    waits for more. *)
Fixpoint watch_loop (sel : list Selected) (reg : SchemaRegistry KV)
    : SchemaRegistry KV * list Event :=
  match sel with
  | [] => (reg, [])
  | CtxDone :: _ => (reg, [])
  | ChanClosed :: _ => (reg, [])
  | Update entry :: rest =>
      let '(reg1, evs1) := watch_update entry reg in
      let '(reg2, evs2) := watch_loop rest reg1 in
      (reg2, evs1 ++ evs2)
  end.

(** [Watch]: [watcher] is what [reg.kv.WatchAll()] returned, the updates
    standing for the channel of the watcher. *)
Definition Watch (watcher : result (list Selected)) (reg : SchemaRegistry KV)
    : option string * SchemaRegistry KV * list Event :=
  match watcher with
  | Err err => (Some err, reg, [])
  | Ok sel => let '(reg', evs) := watch_loop sel reg in (None, reg', evs)
  end.

Definition RegisterSchema (reg : SchemaRegistry KV) (r : micro.Request)
    : SchemaRegistry KV * list Event :=
  match json_Unmarshal (micro.Data r) with
  | Err err => (reg, [ReqError "400" err])
  | Ok schema =>
      let schema := set_Name (request_name r) schema in
      match json_Marshal schema with
      | Err err => (reg, [ReqError "400" err])
      | Ok data =>
          match nats.Create (kv reg) (Name schema) data with
          | (kv', Err err) =>
              ({| kv := kv'; schemas := schemas reg |}, [ReqError "500" err])
          | (kv', Ok rev) =>
              ({| kv := kv'; schemas := schemas reg |},
               [ReqRespondJSON (set_Revision rev schema)])
          end
      end
  end.

Definition UnregisterSchema (reg : SchemaRegistry KV) (r : micro.Request)
    : SchemaRegistry KV * list Event :=
  let name := request_name r in
  match nats.Delete (kv reg) name with
  | (kv', Some err) =>
      ({| kv := kv'; schemas := schemas reg |}, [ReqError "500" err])
  | (kv', None) =>
      ({| kv := kv'; schemas := schemas reg |}, [ReqRespond ""])
  end.

Definition GetSchema (reg : SchemaRegistry KV) (r : micro.Request)
    : SchemaRegistry KV * list Event :=
  let name := request_name r in
  match schemas reg !! name with
  | None => (reg, [MapLookup name; ReqError "404" "Not found"])
  | Some schema => (reg, [MapLookup name; ReqRespondJSON schema])
  end.

Definition UpdateSchema (reg : SchemaRegistry KV) (r : micro.Request)
    : SchemaRegistry KV * list Event :=
  match json_Unmarshal (micro.Data r) with
  | Err err => (reg, [ReqError "400" err])
  | Ok schema =>
      let schema := set_Name (request_name r) schema in
      match json_Marshal schema with
      | Err err => (reg, [ReqError "400" err])
      | Ok data =>
          match nats.Put (kv reg) (Name schema) data with
          | (kv', Err err) =>
              ({| kv := kv'; schemas := schemas reg |}, [ReqError "500" err])
          | (kv', Ok rev) =>
              ({| kv := kv'; schemas := schemas reg |},
               [ReqRespondJSON (set_Revision rev schema)])
          end
      end
  end.

Definition validate (data : string) (schema : Schema) : option string :=
  match gojsonschema_Validate (Body schema) data with
  | Err err => Some err
  | Ok result =>
      if negb (Valid result)
      then Some ("invalid payload: " +:+ strings.Join (Errors result) ", ")
      else None
  end.

(** The header map of the outgoing message: the inbound one (a fresh one
    when that is [nil]) with the audit headers set. *)
Definition audit_header (schema : Schema)
    (h : option (gmap string (list string))) : gmap string (list string) :=
  nats.Header_Set "Schema-Validated" "true"
    (nats.Header_Set "Schema-Type" (Type_ schema)
      (nats.Header_Set "Schema-Subject" (Subject schema)
        (nats.Header_Set "Schema-Revision" (Sprintf_d (Revision schema))
          (nats.Header_Set "Schema-Name" (Name schema)
            (default ∅ h))))).

(** The [range reg.schemas] loop of [ValidatePayload] over the schemas in
    the order the iteration yields them, and what follows the loop.  The
    first component is the header map of the inbound message afterwards:
    a non-nil map is shared with the outgoing message. *)
Fixpoint scan (subject : string) (m : nats.Msg) (order : list Schema)
    : option (gmap string (list string)) * list Event :=
  match order with
  | [] =>
      let errorMessage :=
        "could not find schema for subject " +:+ strconv_Quote subject in
      (nats.Header m, [Println errorMessage; MsgRespond errorMessage])
  | schema :: rest =>
      if negb (SubjectsMatch subject (Subject schema)) then scan subject m rest
      else
        match validate (nats.Data m) schema with
        | Some err => (nats.Header m, [MsgRespond err])
        | None =>
            let header := audit_header schema (nats.Header m) in
            let msg := {| nats.Subject := subject;
                          nats.Reply := nats.Reply m;
                          nats.Data := nats.Data m;
                          nats.Header := Some header |} in
            let inbound := match nats.Header m with
                           | Some _ => Some header
                           | None => None
                           end in
            match nc_PublishMsg msg with
            | Some err =>
                (inbound,
                 [PublishMsg msg; Log ("error publishing message: " +:+ err);
                  MsgRespond err])
            | None => (inbound, [PublishMsg msg])
            end
        end
  end.

(** The subject a validation request governs: [parts[2:]] joined again. *)
Definition governed_subject (inbound : string) : string :=
  strings.Join (drop 2 (strings.Split inbound dot)) ".".

(** [order] is the order in which [range reg.schemas] yields the cached
    schemas in this call.  Slicing [parts[2:]] panics on fewer than two
    tokens; the deferred [RUnlock] runs all the same. *)
Definition ValidatePayload (reg : SchemaRegistry KV) (order : list Schema)
    (m : nats.Msg) : Dispatch :=
  let parts := strings.Split (nats.Subject m) dot in
  if (length parts <? 2)%nat
  then {| outcome := Panicked; inbound_header := nats.Header m;
          trace := [RLock; RUnlock] |}
  else
    let subject := strings.Join (drop 2 parts) "." in
    let '(header, evs) := scan subject m order in
    {| outcome := Returned; inbound_header := header;
       trace := RLock :: MapRange :: evs ++ [RUnlock] |}.

(** The orders a [range] over the cache can take. *)
Definition range_order (reg : SchemaRegistry KV) (order : list Schema) : Prop :=
  order ≡ₚ (map_to_list (schemas reg)).*2.

End Registry.

(** ** The locking discipline of the [schemas] map *)

(** A trace keeps the discipline when it reads [reg.schemas] only with
    [schemasMu] held (for reading or writing) and writes it only with
    [schemasMu] held for writing.  [rheld] and [wheld] say how the mutex is
    held by the caller on entry. *)
Fixpoint guarded (rheld wheld : bool) (tr : list Event) : bool :=
  match tr with
  | [] => true
  | RLock :: tr' => guarded true wheld tr'
  | RUnlock :: tr' => guarded false wheld tr'
  | Lock :: tr' => guarded rheld true tr'
  | Unlock :: tr' => guarded rheld false tr'
  | MapLookup _ :: tr' => (rheld || wheld) && guarded rheld wheld tr'
  | MapRange :: tr' => (rheld || wheld) && guarded rheld wheld tr'
  | MapStore _ :: tr' => wheld && guarded rheld wheld tr'
  | _ :: tr' => guarded rheld wheld tr'
  end.

(** The messages a trace hands to [PublishMsg], whether the call succeeds
    or fails. *)
Definition published (tr : list Event) : list nats.Msg :=
  omap (fun ev => match ev with PublishMsg msg => Some msg | _ => None end) tr.

(** The names a trace stores into [reg.schemas]. *)
Definition stored (tr : list Event) : list string :=
  omap (fun ev => match ev with MapStore name => Some name | _ => None end) tr.

(** The payloads a trace sends to the reply subject of the inbound
    message. *)
Definition responded (tr : list Event) : list string :=
  omap (fun ev => match ev with MsgRespond data => Some data | _ => None end) tr.

(** The answers a trace gives to a request of the service. *)
Definition answered (tr : list Event) : list Event :=
  omap (fun ev => match ev with
                  | ReqError _ _ | ReqRespond _ | ReqRespondJSON _ => Some ev
                  | _ => None
                  end) tr.

(** The reads and writes of [reg.schemas] in a trace. *)
Definition cache_accesses (tr : list Event) : list Event :=
  omap (fun ev => match ev with
                  | MapLookup _ | MapRange | MapStore _ => Some ev
                  | _ => None
                  end) tr.

(** One turn of the loop of [Watch] seen from the registry alone; a turn
    that is no update leaves it. *)
Definition watch_turn `{env : Env} {KV : Type} (reg : SchemaRegistry KV)
    (s : Selected) : SchemaRegistry KV :=
  match s with
  | Update entry => (watch_update entry reg).1
  | _ => reg
  end.

(** Every record of the cache sits under its own name. *)
Definition keys_named (cache : gmap string Schema) : Prop :=
  ∀ name schema, cache !! name = Some schema → Name schema = name.

(** The turns of the [select] that deliver an update. *)
Definition is_update (s : Selected) : Prop :=
  match s with Update _ => True | _ => False end.

(** An update that does not store under [name]: the [nil] entry, a payload
    that does not decode, or a payload of another name. *)
Definition keeps_name `{env : Env} (name : string) (s : Selected) : Prop :=
  match s with
  | Update (Some entry) =>
      match json_Unmarshal (nats.Value entry) with
      | Ok schema => Name schema ≠ name
      | Err _ => True
      end
  | _ => True
  end.

(** The status code of the error a request was answered with, if any. *)
Definition error_code (tr : list Event) : option string :=
  head (omap (fun ev => match ev with
                        | ReqError code _ => Some code
                        | _ => None
                        end) tr).

(** ** A key/value bucket in memory *)

(** A bucket that behaves as the store contract asks: [Create] refuses a key
    that is present, [Put] overwrites, every write takes the next revision
    of the bucket, and a bucket that is not [online] fails every call. *)
Record Bucket := mkBucket {
  entries : gmap string (N * string);
  sequence : N;
  online : bool
}.

Definition ErrKeyExists : string := "nats: key exists".
Definition ErrTimeout : string := "nats: timeout".

Definition bucket_write (b : Bucket) (key value : string) : Bucket * result N :=
  let rev := (sequence b + 1)%N in
  ({| entries := <[key := (rev, value)]> (entries b);
      sequence := rev; online := online b |}, Ok rev).

Definition bucket_Create (b : Bucket) (key value : string) : Bucket * result N :=
  if negb (online b) then (b, Err ErrTimeout)
  else match entries b !! key with
       | Some _ => (b, Err ErrKeyExists)
       | None => bucket_write b key value
       end.

Definition bucket_Put (b : Bucket) (key value : string) : Bucket * result N :=
  if negb (online b) then (b, Err ErrTimeout) else bucket_write b key value.

Definition bucket_Delete (b : Bucket) (key : string) : Bucket * option string :=
  if negb (online b) then (b, Some ErrTimeout)
  else ({| entries := delete key (entries b);
           sequence := (sequence b + 1)%N; online := online b |}, None).

#[export] Instance bucket_KeyValue : nats.KeyValue Bucket := {
  nats.Create := bucket_Create;
  nats.Put := bucket_Put;
  nats.Delete := bucket_Delete
}.

(** ** A small environment to run the handlers in *)

(** Stand-ins for the codec, the validator and the connection, enough to
    run the handlers on concrete requests.  The codec writes a schema as
    its name, subject, type and body between semicolons; the validator
    accepts the payload [1], cannot read the payload [abc] and rejects
    every other payload with two errors; publishing succeeds. *)
Definition semicolon : ascii := ";"%char.

Definition test_Unmarshal (data : string) : result Schema :=
  match strings.Split data semicolon with
  | [name; subject; type; body] =>
      Ok {| Name := name; Subject := subject; Revision := 0;
            Type_ := type; Body := body |}
  | _ => Err "unexpected end of JSON input"
  end.

Definition test_Marshal (s : Schema) : result string :=
  Ok (strings.Join [Name s; Subject s; Type_ s; Body s] ";").

Definition test_Validate (body data : string) : result ValidationResult :=
  if String.eqb data "1" then Ok {| Valid := true; Errors := [] |}
  else if String.eqb data "abc"
       then Err "invalid character 'a' looking for beginning of value"
       else Ok {| Valid := false;
                  Errors := ["(root): Invalid type. Expected: number";
                             "(root): Must be greater than 0"] |}.

Definition test_Quote (s : string) : string :=
  String (ascii_of_nat 34) (s +:+ String (ascii_of_nat 34) EmptyString).

Definition test_env : Env := {|
  json_Unmarshal := test_Unmarshal;
  json_Marshal := test_Marshal;
  gojsonschema_Validate := test_Validate;
  strconv_Quote := test_Quote;
  nc_PublishMsg := fun _ => None
|}.

(** A registration of the schema [numbers] for the subjects [numbers.>]. *)
Definition numbers_request : micro.Request :=
  {| micro.Subject := "$SCHEMA.REGISTER.numbers";
     micro.Data := ";numbers.>;jsonschema;{type: number}" |}.

Definition numbers_schema (rev : N) : Schema :=
  {| Name := "numbers"; Subject := "numbers.>"; Revision := rev;
     Type_ := "jsonschema"; Body := "{type: number}" |}.

Definition letters_schema (rev : N) : Schema :=
  {| Name := "letters"; Subject := "letters.*"; Revision := rev;
     Type_ := "jsonschema"; Body := "{type: string}" |}.

Definition numbers_stored : string := "numbers;numbers.>;jsonschema;{type: number}".

Definition empty_bucket : Bucket :=
  {| entries := ∅; sequence := 0; online := true |}.

(** The bucket after that registration, and a bucket that cannot be
    reached. *)
Definition numbers_bucket : Bucket :=
  {| entries := {[ "numbers" := (1%N, numbers_stored) ]};
     sequence := 1; online := true |}.

Definition offline_bucket : Bucket :=
  {| entries := ∅; sequence := 0; online := false |}.

(** The update that the feed delivers for that registration, one for its
    deletion, and one whose payload names another schema than its key. *)
Definition numbers_entry : nats.KeyValueEntry :=
  {| nats.Key := "numbers"; nats.Value := numbers_stored;
     nats.Revision := 1; nats.Operation := nats.KeyValuePut |}.

Definition numbers_deleted : nats.KeyValueEntry :=
  {| nats.Key := "numbers"; nats.Value := "";
     nats.Revision := 2; nats.Operation := nats.KeyValueDelete |}.

Definition misnamed_entry : nats.KeyValueEntry :=
  {| nats.Key := "letters"; nats.Value := numbers_stored;
     nats.Revision := 3; nats.Operation := nats.KeyValuePut |}.

(** A registry that has cached the schema [numbers]. *)
Definition numbers_registry : SchemaRegistry Bucket :=
  {| kv := numbers_bucket; schemas := {[ "numbers" := numbers_schema 1 ]} |}.

Definition validate_message (subject data : string) : nats.Msg :=
  {| nats.Subject := subject; nats.Reply := "_INBOX.caller";
     nats.Data := data; nats.Header := None |}.

(** ** The claims that the code does not bear out, as they are stated *)

(** What is said of a pattern and a literal whose tokens agree on the
    first [k] positions: every pattern token before [k] is ["*"] or is the
    literal's token at that position. *)
Definition agree_before (k : nat) (ls ws : list string) : Prop :=
  ∀ i w l, (i < k)%nat → ws !! i = Some w → ls !! i = Some l → token_matches w l.

(** The claim C3 at one literal, pattern and position. *)
Definition multi_wildcard_claim (L P : string) (k : nat) : Prop :=
  let lparts := strings.Split L dot in
  let wparts := strings.Split P dot in
  (k ≤ length lparts)%nat →
  agree_before k lparts wparts →
  wparts !! k = Some ">" →
  SubjectsMatch L P = true.

(** The claim C2 on the answer to a conflict, at one request: registering
    a name that the bucket [taken] holds is answered with another error
    code than registering on the bucket [down], which fails every call. *)
Definition conflict_answer_claim `{env : Env} (taken down : Bucket)
    (r : micro.Request) : Prop :=
  online taken = true →
  is_Some (entries taken !! request_name r) →
  online down = false →
  (∃ schema data,
      json_Unmarshal (micro.Data r) = Ok schema
      ∧ json_Marshal (set_Name (request_name r) schema) = Ok data) →
  error_code (RegisterSchema {| kv := taken; schemas := ∅ |} r).2
  ≠ error_code (RegisterSchema {| kv := down; schemas := ∅ |} r).2.

(** * Properties *)

(** ** Tokens *)

Lemma Split_nonempty (s : string) (sep : ascii) : strings.Split s sep ≠ [].
Proof.
  destruct s as [|c s]; simpl; [discriminate|].
  destruct (Ascii.eqb c sep); [discriminate|].
  destruct (strings.Split s sep); discriminate.
Qed.

Lemma Split_length_pos (s : string) (sep : ascii) :
  (0 < length (strings.Split s sep))%nat.
Proof.
  pose proof (Split_nonempty s sep).
  destruct (strings.Split s sep); [done | simpl; lia].
Qed.

(** ** The subject matcher *)

Lemma match_from_walk (lparts wparts : list string) (i : nat) :
  match_from lparts i wparts = walk (drop i lparts) wparts.
Proof.
  revert i. induction wparts as [|w ws IH]; intros i; [done|].
  simpl. destruct (Nat.leb_spec (length lparts) i) as [Hle|Hlt].
  - by rewrite drop_ge.
  - destruct (lookup_lt_is_Some_2 lparts i Hlt) as [l Hl].
    rewrite (drop_S _ _ _ Hl), nth_lookup, Hl. simpl.
    rewrite !IH. rewrite (String.eqb_sym l w).
    destruct (String.eqb w "*"), (String.eqb w ">"), (String.eqb w l); done.
Qed.

Lemma walk_same (ls : list string) : walk ls ls = true.
Proof.
  induction ls as [|l ls IH]; [done|]. simpl.
  rewrite String.eqb_refl, IH.
  by destruct (String.eqb l "*"), (String.eqb l ">").
Qed.

(** The fast path agrees with the walk, so the walk on the two token lists
    is all of [SubjectsMatch]. *)
Lemma SubjectsMatch_walk (literal wildcard : string) :
  SubjectsMatch literal wildcard
  = walk (strings.Split literal dot) (strings.Split wildcard dot).
Proof.
  unfold SubjectsMatch.
  destruct (String.eqb_spec literal wildcard) as [->|_].
  - by rewrite walk_same.
  - by rewrite match_from_walk.
Qed.

Lemma walk_star (l : string) (ls ws : list string) :
  walk (l :: ls) ("*" :: ws) = walk ls ws.
Proof. done. Qed.

Lemma walk_tail (l : string) (ls ws : list string) :
  walk (l :: ls) (">" :: ws) = true.
Proof. done. Qed.

Lemma walk_plain (w l : string) (ls ws : list string) :
  w ≠ "*" → w ≠ ">" →
  walk (l :: ls) (w :: ws) = String.eqb l w && walk ls ws.
Proof.
  intros Hs Ht. simpl.
  apply String.eqb_neq in Hs, Ht. rewrite Hs, Ht.
  by destruct (String.eqb l w).
Qed.

(** A pattern whose tokens match the literal's tokens position by position
    is accepted as soon as the pattern ends, whatever is left of the
    literal. *)
Lemma walk_prefix (ls ws : list string) :
  (length ws ≤ length ls)%nat →
  (∀ i w l, ws !! i = Some w → ls !! i = Some l → token_matches w l) →
  walk ls ws = true.
Proof.
  revert ls. induction ws as [|w ws IH]; intros ls Hlen Hm; [done|].
  destruct ls as [|l ls]; [simpl in Hlen; lia|].
  simpl. destruct (String.eqb_spec w "*") as [_|Hs].
  - apply IH; [simpl in Hlen; lia|].
    intros i w' l' Hw Hl. by apply (Hm (S i)).
  - destruct (String.eqb w ">"); [done|].
    destruct (Hm 0%nat w l eq_refl eq_refl) as [->| ->]; [done|].
    rewrite String.eqb_refl. apply IH; [simpl in Hlen; lia|].
    intros i w' l' Hw Hl. by apply (Hm (S i)).
Qed.

(** The walk stops with [true] at a [">"] that it reaches while the
    literal still has a token there. *)
Lemma walk_reaches_tail (ls ws : list string) (k : nat) :
  (k < length ls)%nat →
  ws !! k = Some ">" →
  (∀ i w l, (i < k)%nat → ws !! i = Some w → ls !! i = Some l →
            token_matches w l) →
  walk ls ws = true.
Proof.
  revert ls ws. induction k as [|k IH]; intros ls ws Hk Hgt Hm.
  - destruct ws as [|w ws]; [done|]. simplify_eq/=.
    destruct ls as [|l ls]; [simpl in Hk; lia|]. done.
  - destruct ws as [|w ws]; [done|].
    destruct ls as [|l ls]; [simpl in Hk; lia|].
    simpl in *. destruct (String.eqb_spec w "*") as [_|Hs].
    + apply IH; [lia|done|].
      intros i w' l' Hi Hw Hl. apply (Hm (S i)); [lia|done..].
    + destruct (String.eqb w ">"); [done|].
      destruct (Hm 0%nat w l) as [->| ->]; [lia|done..|].
      rewrite String.eqb_refl. apply IH; [lia|done|].
      intros i w' l' Hi Hw Hl. apply (Hm (S i)); [lia|done..].
Qed.

(** The walk fails when the literal ends before the pattern and no [">"]
    has ended the walk earlier. *)
Lemma walk_literal_short (ls ws : list string) :
  (length ls < length ws)%nat →
  (∀ j, (j < length ls)%nat → ws !! j ≠ Some ">") →
  walk ls ws = false.
Proof.
  revert ws. induction ls as [|l ls IH]; intros ws Hlen Hgt.
  - destruct ws; [simpl in Hlen; lia | done].
  - destruct ws as [|w ws]; [simpl in Hlen; lia|].
    simpl in *.
    assert (walk ls ws = false) as Hrec.
    { apply IH; [lia|]. intros j Hj. apply (Hgt (S j)). lia. }
    rewrite Hrec.
    destruct (String.eqb_spec w ">") as [->|_].
    + exfalso. apply (Hgt 0%nat); [lia|done].
    + by destruct (String.eqb w "*"), (String.eqb l w).
Qed.

(** An accepted literal carries, at the position of a plain pattern token
    that the walk reaches, that very token. *)
Lemma walk_plain_equal (ls ws : list string) (k : nat) (w l : string) :
  ws !! k = Some w → w ≠ "*" → w ≠ ">" →
  (∀ j, (j < k)%nat → ws !! j ≠ Some ">") →
  ls !! k = Some l →
  walk ls ws = true → l = w.
Proof.
  revert ls ws. induction k as [|k IH]; intros ls ws Hw Hs Ht Hgt Hl Hwalk.
  - destruct ws as [|w0 ws], ls as [|l0 ls]; try done.
    injection Hw as ->. injection Hl as ->.
    rewrite walk_plain in Hwalk by done.
    apply andb_true_iff in Hwalk as [Heq _]. by apply String.eqb_eq in Heq.
  - destruct ws as [|w0 ws], ls as [|l0 ls]; try done.
    assert (w0 ≠ ">") as Hw0.
    { intros ->. apply (Hgt 0%nat); [lia|done]. }
    assert (walk ls ws = true) as Hrec.
    { simpl in Hwalk. apply String.eqb_neq in Hw0. rewrite Hw0 in Hwalk.
      by destruct (String.eqb w0 "*"), (String.eqb l0 w0). }
    apply (IH ls ws); try done.
    intros j Hj. apply (Hgt (S j)). lia.
Qed.

(** The literal token under a ["*"] of the pattern has no say. *)
Lemma walk_star_any (ls ls' ws : list string) (k : nat) :
  ws !! k = Some "*" →
  length ls = length ls' →
  (∀ j, j ≠ k → ls !! j = ls' !! j) →
  walk ls ws = walk ls' ws.
Proof.
  revert ls ls' ws. induction k as [|k IH]; intros ls ls' ws Hw Hlen Hsame.
  - destruct ws as [|w ws]; simplify_eq/=.
    destruct ls as [|l ls], ls' as [|l' ls']; simplify_eq/=; [done|].
    f_equal. apply list_eq. intros j. apply (Hsame (S j)). lia.
  - destruct ws as [|w ws]; simplify_eq/=.
    destruct ls as [|l ls], ls' as [|l' ls']; simplify_eq/=; [done|].
    assert (l = l') as <-.
    { assert (Some l = Some l') as Heq by apply (Hsame 0%nat ltac:(lia)).
      by injection Heq. }
    rewrite (IH ls ls' ws); [done..|].
    intros j Hj. apply (Hsame (S j)). lia.
Qed.

(** C1, as the code has it: a pattern without [">"] whose tokens match the
    first tokens of a longer literal is accepted.  The loop over the
    pattern's tokens ends and [SubjectsMatch] returns [true] without a look
    at the tokens the literal has left, where the claim asks for [false]. *)
Theorem SubjectsMatch_trailing_tokens_accepted (L P : string) :
  let lparts := strings.Split L dot in
  let wparts := strings.Split P dot in
  ">" ∉ wparts →
  (length wparts < length lparts)%nat →
  agree_before (length wparts) lparts wparts →
  SubjectsMatch L P = true.
Proof.
  intros lparts wparts _ Hlen Hagree.
  rewrite SubjectsMatch_walk. apply walk_prefix; [fold lparts wparts; lia|].
  intros i w l Hw Hl. apply (Hagree i); [|done..].
  by apply lookup_lt_Some in Hw.
Qed.

Lemma SubjectsMatch_trailing_tokens_accepted_witness :
  SubjectsMatch "foo.bar.baz" "foo.bar" = true.
Proof.
  apply SubjectsMatch_trailing_tokens_accepted.
  - vm_compute. intros Hin. repeat (inversion Hin as [|? ? ? Hin']; clear Hin;
      rename Hin' into Hin); inversion Hin.
  - vm_compute. lia.
  - intros [|[|i]] w l Hi Hw Hl; vm_compute in Hw, Hl; simplify_eq.
    + by right.
    + by right.
Defined.

(** C3 fails where the literal ends at the position of the [">"]: the
    length check of the loop comes first. *)
Lemma multi_wildcard_needs_a_token : ¬ multi_wildcard_claim "foo" "foo.>" 1.
Proof.
  intros Hclaim. cut (SubjectsMatch "foo" "foo.>" = true); [done|].
  apply Hclaim; [vm_compute; lia | | done].
  intros [|i] w l Hi Hw Hl; [|lia].
  vm_compute in Hw, Hl. simplify_eq. by right.
Qed.

(** C3, amended: a [">"] at position [k] of the pattern, behind tokens that
    match the literal's, gives [true] wherever [k] falls in the pattern and
    however many tokens the literal has from [k] on, as long as it has one
    at [k]; a literal that ends at [k] is refused when no [">"] stands
    earlier in the pattern. *)
Theorem SubjectsMatch_multi_wildcard (L P : string) (k : nat) :
  let lparts := strings.Split L dot in
  let wparts := strings.Split P dot in
  wparts !! k = Some ">" →
  agree_before k lparts wparts →
  ((k < length lparts)%nat → SubjectsMatch L P = true)
  ∧ (length lparts = k → (∀ j, (j < k)%nat → wparts !! j ≠ Some ">") →
     SubjectsMatch L P = false).
Proof.
  intros lparts wparts Hgt Hagree. rewrite SubjectsMatch_walk. split.
  - intros Hk. by apply (walk_reaches_tail _ _ k).
  - intros Hk Hno. apply walk_literal_short; fold lparts wparts.
    + apply lookup_lt_Some in Hgt. lia.
    + intros j Hj. apply Hno. lia.
Qed.

Lemma SubjectsMatch_multi_wildcard_witness :
  SubjectsMatch "foo.bar.baz" "foo.>.qux" = true
  ∧ SubjectsMatch "foo" "foo.>" = false.
Proof.
  split.
  - apply (SubjectsMatch_multi_wildcard "foo.bar.baz" "foo.>.qux" 1); [done| |].
    + intros [|i] w l Hi Hw Hl; [|lia].
      vm_compute in Hw, Hl. simplify_eq. by right.
    + vm_compute. lia.
  - apply (SubjectsMatch_multi_wildcard "foo" "foo.>" 1); [done| |done|].
    + intros [|i] w l Hi Hw Hl; [|lia].
      vm_compute in Hw, Hl. simplify_eq. by right.
    + intros [|j] Hj; [|lia]. done.
Defined.

(** C7: the same string twice is a match, whatever the string; the literal
    token under a ["*"] of the pattern does not influence the result; an
    accepted literal has, under a plain pattern token that the walk
    reaches, exactly that token; a literal that ends before the pattern,
    with no [">"] met until then, is refused; and the five calls of the
    tests give what the tests expect. *)
Theorem SubjectsMatch_rules :
  (∀ s, SubjectsMatch s s = true)
  ∧ (∀ L L' P k,
       strings.Split P dot !! k = Some "*" →
       length (strings.Split L dot) = length (strings.Split L' dot) →
       (∀ j, j ≠ k → strings.Split L dot !! j = strings.Split L' dot !! j) →
       SubjectsMatch L P = SubjectsMatch L' P)
  ∧ (∀ L P k w l,
       strings.Split P dot !! k = Some w → w ≠ "*" → w ≠ ">" →
       (∀ j, (j < k)%nat → strings.Split P dot !! j ≠ Some ">") →
       strings.Split L dot !! k = Some l →
       SubjectsMatch L P = true → l = w)
  ∧ (∀ L P,
       (length (strings.Split L dot) < length (strings.Split P dot))%nat →
       (∀ j, (j < length (strings.Split L dot))%nat →
             strings.Split P dot !! j ≠ Some ">") →
       SubjectsMatch L P = false)
  ∧ SubjectsMatch "foo.bar" "foo.bar" = true
  ∧ SubjectsMatch "foo.bar" "foo.*" = true
  ∧ SubjectsMatch "foo.bar" "foo.>" = true
  ∧ SubjectsMatch "foo.bar" ">" = true
  ∧ SubjectsMatch "foo.bar" "bar.>" = false.
Proof.
  split_and!; try reflexivity.
  - intros s. unfold SubjectsMatch. by rewrite String.eqb_refl.
  - intros L L' P k Hk Hlen Hsame. rewrite !SubjectsMatch_walk.
    by apply (walk_star_any _ _ _ k).
  - intros L P k w l Hw Hs Ht Hno Hl. rewrite SubjectsMatch_walk.
    by apply (walk_plain_equal _ _ k).
  - intros L P Hlen Hno. rewrite SubjectsMatch_walk.
    by apply walk_literal_short.
Qed.

Lemma SubjectsMatch_rules_witness :
  SubjectsMatch "foo.bar" "foo.*" = SubjectsMatch "foo.qux" "foo.*"
  ∧ SubjectsMatch "foo" "foo.bar" = false.
Proof.
  destruct SubjectsMatch_rules as (_ & Hstar & _ & Hshort & _). split.
  - apply (Hstar "foo.bar" "foo.qux" "foo.*" 1%nat); [done..|].
    intros [|[|j]] Hj; done.
  - apply Hshort; [vm_compute; lia|].
    intros [|j] Hj; [done|]. vm_compute in Hj. lia.
Defined.

(** Tokens are compared byte for byte, so the case of a letter counts. *)
Example SubjectsMatch_case_sensitive :
  SubjectsMatch "foo.Bar" "foo.bar" = false ∧ SubjectsMatch "foo.bar" "foo.bar" = true.
Proof. split; reflexivity. Qed.

(** ** Splitting and joining subjects *)

Lemma append_String (c : ascii) (t s : string) :
  String c t +:+ s = String c (t +:+ s).
Proof. reflexivity. Qed.

Lemma Split_token (t s : string) :
  is_token t = true →
  strings.Split (t +:+ "." +:+ s) dot = t :: strings.Split s dot.
Proof.
  induction t as [|c t IH]; intros Htok; [done|].
  simpl in Htok. apply andb_true_iff in Htok as [Hc Ht].
  apply negb_true_iff in Hc.
  rewrite append_String. cbn [strings.Split].
  by rewrite Hc, (IH Ht).
Qed.

Lemma Join_Split (s : string) : strings.Join (strings.Split s dot) "." = s.
Proof.
  induction s as [|c s IH]; [done|].
  cbn [strings.Split]. destruct (Ascii.eqb_spec c dot) as [->|_].
  - pose proof (Split_nonempty s dot).
    destruct (strings.Split s dot) as [|tok toks]; [done|].
    cbn [strings.Join]. by rewrite <- IH.
  - pose proof (Split_nonempty s dot).
    destruct (strings.Split s dot) as [|tok toks]; [done|].
    rewrite <- IH. by destruct toks.
Qed.

Lemma Split_append (s t : string) :
  strings.Split (s +:+ "." +:+ t) dot
  = strings.Split s dot ++ strings.Split t dot.
Proof.
  induction s as [|c s IH]; [done|].
  rewrite append_String. cbn [strings.Split]. rewrite IH.
  destruct (Ascii.eqb c dot); [done|].
  pose proof (Split_nonempty s dot).
  by destruct (strings.Split s dot).
Qed.

Lemma Split_tokens (s : string) : Forall (fun t => is_token t = true) (strings.Split s dot).
Proof.
  induction s as [|c s IH]; [by repeat constructor|].
  cbn [strings.Split]. destruct (Ascii.eqb c dot) eqn:Hc.
  - by constructor.
  - pose proof (Split_nonempty s dot).
    destruct (strings.Split s dot) as [|tok toks]; [done|].
    inversion IH as [|? ? Htok Htoks]; subst.
    constructor; [|done]. simpl. fold dot. by rewrite Hc.
Qed.

Lemma Split_one_token (t : string) :
  is_token t = true → strings.Split t dot = [t].
Proof.
  induction t as [|c t IH]; [done|]. simpl.
  intros [Hc Ht]%andb_true_iff. apply negb_true_iff in Hc.
  fold dot. by rewrite Hc, (IH Ht).
Qed.

(** The name of a request has no dot in it. *)
Lemma request_name_token (r : micro.Request) :
  is_token (request_name r) = true.
Proof.
  unfold request_name.
  pose proof (Split_tokens (micro.Subject r)) as Htok.
  pose proof (Split_length_pos (micro.Subject r) dot) as Hpos.
  rewrite Forall_lookup in Htok.
  destruct (lookup_lt_is_Some_2 (strings.Split (micro.Subject r) dot)
              (length (strings.Split (micro.Subject r) dot) - 1)) as [t Ht];
    [lia|].
  rewrite nth_lookup, Ht. simpl. by apply (Htok _ _ Ht).
Qed.

(** The name of a request is what stands behind the last dot of its
    subject. *)
Lemma request_name_behind_last_dot (r : micro.Request) (prefix name : string) :
  micro.Subject r = prefix +:+ "." +:+ name →
  is_token name = true →
  request_name r = name.
Proof.
  intros Hsubject Hname. unfold request_name. rewrite Hsubject.
  rewrite Split_append, (Split_one_token name Hname).
  rewrite length_app. simpl.
  rewrite nth_lookup, lookup_app_r by lia.
  replace (_ - _)%nat with 0%nat by lia. done.
Qed.

(** The governed subject is the inbound subject without its first two
    tokens and their separators. *)
Lemma governed_subject_strips (t1 t2 rest : string) :
  is_token t1 = true → is_token t2 = true →
  governed_subject (t1 +:+ "." +:+ t2 +:+ "." +:+ rest) = rest.
Proof.
  intros H1 H2. unfold governed_subject.
  rewrite (Split_token t1 _ H1), (Split_token t2 _ H2). simpl.
  apply Join_Split.
Qed.

(** ** Rendering a revision *)

(** [Sprintf_d] writes the decimal numeral of its argument: read as a
    decimal numeral, the text gives the number back. *)
Lemma Sprintf_d_decimal (n : N) :
  N.of_uint <$> NilZero.uint_of_string (Sprintf_d n) = Some n.
Proof.
  unfold Sprintf_d. rewrite NilZero.usu.
  - simpl. by rewrite DecimalN.Unsigned.of_to.
  - destruct n as [|p]; [done|]. apply DecimalPos.Unsigned.to_uint_nonnil.
Qed.

Example Sprintf_d_42 : Sprintf_d 42 = "42" ∧ Sprintf_d 0 = "0".
Proof. split; reflexivity. Qed.

(** ** The locking discipline *)

Lemma guarded_app_free (evs tr : list Event) (rheld wheld : bool) :
  Forall (fun ev => match ev with
                    | Log _ | Println _ | ReqError _ _ | ReqRespond _
                    | ReqRespondJSON _ | MsgRespond _ | PublishMsg _ => True
                    | _ => False
                    end) evs →
  guarded rheld wheld (evs ++ tr) = guarded rheld wheld tr.
Proof.
  induction 1 as [|ev evs Hev _ IH]; [done|].
  destruct ev; try done.
Qed.

Section RegistryFacts.

Context `{env : Env} {KV : Type} `{store : !nats.KeyValue KV}.

Implicit Types (reg : SchemaRegistry KV) (r : micro.Request).

(** *** The cache and the change feed *)

Lemma watch_update_kv (entry : option nats.KeyValueEntry) reg :
  kv (watch_update entry reg).1 = kv reg.
Proof.
  destruct entry as [entry|]; [|done]. simpl.
  by destruct (json_Unmarshal (nats.Value entry)).
Qed.

Lemma watch_update_dom (entry : option nats.KeyValueEntry) reg :
  dom (schemas reg) ⊆ dom (schemas (watch_update entry reg).1).
Proof.
  destruct entry as [entry|]; [|done]. simpl.
  destruct (json_Unmarshal (nats.Value entry)); [|done].
  simpl. rewrite dom_insert_L. set_solver.
Qed.

Lemma watch_loop_cons (entry : option nats.KeyValueEntry)
    (rest : list Selected) reg :
  watch_loop (Update entry :: rest) reg
  = ((watch_loop rest (watch_update entry reg).1).1,
     (watch_update entry reg).2 ++ (watch_loop rest (watch_update entry reg).1).2).
Proof.
  cbn [watch_loop]. destruct (watch_update entry reg) as [reg1 evs1].
  cbn [fst snd]. by destruct (watch_loop rest reg1) as [reg2 evs2].
Qed.

Lemma watch_loop_dom (sel : list Selected) reg :
  dom (schemas reg) ⊆ dom (schemas (watch_loop sel reg).1).
Proof.
  revert reg. induction sel as [|[| |entry] rest IH]; intros reg; try done.
  rewrite watch_loop_cons. simpl.
  etrans; [apply (watch_update_dom entry)|apply IH].
Qed.

Lemma watch_update_guarded (entry : option nats.KeyValueEntry) reg
    (tr : list Event) :
  guarded false false ((watch_update entry reg).2 ++ tr)
  = guarded false false tr.
Proof.
  destruct entry as [entry|]; [|done]. simpl.
  by destruct (json_Unmarshal (nats.Value entry)).
Qed.

Lemma watch_loop_guarded (sel : list Selected) reg :
  guarded false false (watch_loop sel reg).2 = true.
Proof.
  revert reg. induction sel as [|[| |entry] rest IH]; intros reg; try done.
  rewrite watch_loop_cons. simpl. by rewrite watch_update_guarded.
Qed.

Lemma watch_loop_turns (sel : list Selected) reg :
  Forall is_update sel →
  (watch_loop sel reg).1 = foldl watch_turn reg sel.
Proof.
  intros Hsel. revert reg.
  induction Hsel as [|[| |entry] sel Hup _ IH]; intros reg; try done.
  rewrite watch_loop_cons. simpl. apply IH.
Qed.

(** C6: an update that decodes is cached with the revision of the entry
    in place of the one in its payload, and the loop goes on from the
    cache so replaced; an update that does not decode is logged and
    leaves the cache as it was, and the loop goes on with the updates
    behind it; the [nil] entry that ends the initial values is logged and
    leaves the cache as it was.  Over a whole sequence of updates the loop
    takes these turns one after the other, and [Watch] with a watcher
    runs this loop. *)
Theorem Watch_updates (entry : nats.KeyValueEntry) (rest sel : list Selected) reg :
  (∀ schema, json_Unmarshal (nats.Value entry) = Ok schema →
     let cached := set_Revision (nats.Revision entry) schema in
     let reg1 := {| kv := kv reg;
                    schemas := <[Name schema := cached]> (schemas reg) |} in
     Revision cached = nats.Revision entry
     ∧ schemas (watch_update (Some entry) reg).1
       = <[Name schema := cached]> (schemas reg)
     ∧ schemas (watch_update (Some entry) reg).1 !! Name schema = Some cached
     ∧ watch_loop (Update (Some entry) :: rest) reg
       = ((watch_loop rest reg1).1,
          [Lock; MapStore (Name schema); Unlock;
           Log ("Loaded schema: " +:+ strconv_Quote (Name schema)
                +:+ " revision " +:+ Sprintf_d (nats.Revision entry))]
          ++ (watch_loop rest reg1).2))
  ∧ (∀ err, json_Unmarshal (nats.Value entry) = Err err →
       watch_update (Some entry) reg
       = (reg, [Log ("error unmarshaling schema: " +:+ err)])
       ∧ watch_loop (Update (Some entry) :: rest) reg
         = ((watch_loop rest reg).1,
            Log ("error unmarshaling schema: " +:+ err)
              :: (watch_loop rest reg).2))
  ∧ watch_update None reg = (reg, [Log "Loaded initial schemas"])
  ∧ watch_loop (Update None :: rest) reg
    = ((watch_loop rest reg).1,
       Log "Loaded initial schemas" :: (watch_loop rest reg).2)
  ∧ (Forall is_update sel →
     (watch_loop sel reg).1 = foldl watch_turn reg sel)
  ∧ Watch (Ok sel) reg = (None, (watch_loop sel reg).1, (watch_loop sel reg).2).
Proof.
  split_and!.
  - intros schema Hdec cached reg1. rewrite watch_loop_cons.
    simpl. rewrite Hdec. simpl.
    split_and!; [done|done|apply lookup_insert_eq|done].
  - intros err Hdec. rewrite watch_loop_cons. simpl. by rewrite Hdec.
  - done.
  - by rewrite watch_loop_cons.
  - apply watch_loop_turns.
  - unfold Watch. by destruct (watch_loop sel reg).
Qed.

(** C8: [UnregisterSchema] deletes the name of the last subject token
    from the store, answers with an empty payload or, when the store
    fails, with an error, and neither reads nor writes the cache; the
    loop of [Watch] never takes a name out of the cache, whatever it
    receives, so a cached name is still cached after every update.  The
    deleted name has no dot in it and is what stands behind the last dot
    of the subject. *)
Theorem Unregister_leaves_cache (sel : list Selected) reg r :
  let name := request_name r in
  let answer := (UnregisterSchema reg r).2 in
  kv (UnregisterSchema reg r).1 = (nats.Delete (kv reg) name).1
  ∧ answer = match (nats.Delete (kv reg) name).2 with
             | None => [ReqRespond ""]
             | Some err => [ReqError "500" err]
             end
  ∧ schemas (UnregisterSchema reg r).1 = schemas reg
  ∧ dom (schemas reg) ⊆ dom (schemas (watch_loop sel reg).1)
  ∧ (∀ name', is_Some (schemas reg !! name') →
       is_Some (schemas (watch_loop sel (UnregisterSchema reg r).1).1 !! name'))
  ∧ is_token name = true
  ∧ (∀ prefix last,
       micro.Subject r = prefix +:+ "." +:+ last →
       is_token last = true →
       name = last)
  ∧ cache_accesses answer = [].
Proof.
  intros name answer. unfold answer, UnregisterSchema. fold name.
  destruct (nats.Delete (kv reg) name) as [kv' [err|]] eqn:Hdel; simpl;
    (split_and!;
       [done|done|done|apply watch_loop_dom| |apply request_name_token
       |apply request_name_behind_last_dot|done]);
    intros name' Hin; apply elem_of_dom;
    apply (watch_loop_dom sel); by apply elem_of_dom.
Qed.

(** C9, as the code has it: [GetSchema] reads [reg.schemas] with
    [schemasMu] not held, on every request, while [ValidatePayload]
    holds it for reading around its iteration and the loop of [Watch]
    holds it for writing around its store. *)
Theorem GetSchema_reads_unguarded reg r :
  guarded false false (GetSchema reg r).2 = false
  ∧ (∀ order m, guarded false false (trace (ValidatePayload reg order m)) = true)
  ∧ (∀ sel, guarded false false (watch_loop sel reg).2 = true).
Proof.
  split_and!.
  - unfold GetSchema. by destruct (schemas reg !! request_name r).
  - intros order m. unfold ValidatePayload.
    destruct (length (strings.Split (nats.Subject m) dot) <? 2)%nat; [done|].
    set (subject := strings.Join _ _).
    assert (∀ tr, guarded true false ((scan subject m order).2 ++ tr)
                  = guarded true false tr) as Hscan.
    { intros tr. apply guarded_app_free.
      induction order as [|schema order IH]; simpl.
      - by repeat constructor.
      - destruct (SubjectsMatch subject (Subject schema)); simpl; [|done].
        destruct (validate (nats.Data m) schema); [by repeat constructor|].
        destruct (nc_PublishMsg _); by repeat constructor. }
    destruct (scan subject m order) as [header evs] eqn:Hs. simpl in *.
    by rewrite Hscan.
  - intros sel. apply watch_loop_guarded.
Qed.

End RegistryFacts.

Section HandlerFacts.

Context `{env : Env} {KV : Type} `{store : !nats.KeyValue KV}.

Implicit Types (reg : SchemaRegistry KV) (r : micro.Request) (m : nats.Msg).

(** *** Registration *)

Lemma RegisterSchema_encoded reg r (schema : Schema) (data : string) :
  let name := request_name r in
  json_Unmarshal (micro.Data r) = Ok schema →
  json_Marshal (set_Name name schema) = Ok data →
  kv (RegisterSchema reg r).1 = (nats.Create (kv reg) name data).1
  ∧ schemas (RegisterSchema reg r).1 = schemas reg
  ∧ (RegisterSchema reg r).2
    = match (nats.Create (kv reg) name data).2 with
      | Err err => [ReqError "500" err]
      | Ok rev => [ReqRespondJSON (set_Revision rev (set_Name name schema))]
      end.
Proof.
  intros name Hdec Henc. unfold RegisterSchema.
  rewrite Hdec. fold name. rewrite Henc. simpl.
  by destruct (nats.Create (kv reg) name data) as [kv' [rev|err]].
Qed.

(** C2, amended: a body that does not decode is answered with the error
    code 400; a failure of the store's create operation, whatever it is,
    is answered with the error code 500 and the text of the store's
    error; on success the answer is the decoded schema under the name of
    the request with the revision that the create operation returned. *)
Theorem RegisterSchema_answers reg r :
  let name := request_name r in
  (∀ err, json_Unmarshal (micro.Data r) = Err err →
     RegisterSchema reg r = (reg, [ReqError "400" err]))
  ∧ (∀ schema data,
       json_Unmarshal (micro.Data r) = Ok schema →
       json_Marshal (set_Name name schema) = Ok data →
       kv (RegisterSchema reg r).1 = (nats.Create (kv reg) name data).1
       ∧ schemas (RegisterSchema reg r).1 = schemas reg
       ∧ (RegisterSchema reg r).2
         = match (nats.Create (kv reg) name data).2 with
           | Err err => [ReqError "500" err]
           | Ok rev => [ReqRespondJSON (set_Revision rev (set_Name name schema))]
           end).
Proof.
  intros name. split.
  - intros err Hdec. unfold RegisterSchema. by rewrite Hdec.
  - intros schema data. apply RegisterSchema_encoded.
Qed.


(** *** Validation and dispatch *)

Lemma scan_skip (subject : string) m (pre rest : list Schema) :
  Forall (fun s => SubjectsMatch subject (Subject s) = false) pre →
  scan subject m (pre ++ rest) = scan subject m rest.
Proof.
  induction 1 as [|s pre Hs _ IH]; [done|].
  simpl. by rewrite Hs.
Qed.

Lemma range_order_elem reg (order : list Schema) (s : Schema) :
  range_order reg order →
  s ∈ order ↔ ∃ name, schemas reg !! name = Some s.
Proof.
  unfold range_order. intros ->. rewrite list_elem_of_fmap. split.
  - intros [[name s'] [-> Hin]]. exists name. by apply elem_of_map_to_list.
  - intros [name Hs]. exists (name, s). split; [done|].
    by apply elem_of_map_to_list.
Qed.

Lemma ValidatePayload_scan reg (order : list Schema) m :
  (2 ≤ length (strings.Split (nats.Subject m) dot))%nat →
  ValidatePayload reg order m
  = {| outcome := Returned;
       inbound_header := (scan (governed_subject (nats.Subject m)) m order).1;
       trace := RLock :: MapRange
                :: (scan (governed_subject (nats.Subject m)) m order).2
                ++ [RUnlock] |}.
Proof.
  intros Hlen. unfold ValidatePayload, governed_subject.
  apply Nat.ltb_ge in Hlen. rewrite Hlen.
  by destruct (scan _ m order).
Qed.

(** C4: with no cached schema whose pattern matches the governed subject,
    the caller gets the text of the "could not find schema" error and
    nothing is published; when the first matching schema of the
    iteration rejects the payload, the caller gets the validation error
    descriptions joined with a comma and a space, behind the words
    [invalid payload:], and nothing is published.  In both cases the
    headers of the inbound message stay as they were. *)
Theorem ValidatePayload_failures reg (order : list Schema) m :
  let subject := governed_subject (nats.Subject m) in
  (2 ≤ length (strings.Split (nats.Subject m) dot))%nat →
  (range_order reg order →
   (∀ name s, schemas reg !! name = Some s →
              SubjectsMatch subject (Subject s) = false) →
   let text := "could not find schema for subject " +:+ strconv_Quote subject in
   ValidatePayload reg order m
   = {| outcome := Returned; inbound_header := nats.Header m;
        trace := [RLock; MapRange; Println text; MsgRespond text; RUnlock] |}
   ∧ published (trace (ValidatePayload reg order m)) = [])
  ∧ (∀ pre schema post result,
       order = pre ++ schema :: post →
       Forall (fun s => SubjectsMatch subject (Subject s) = false) pre →
       SubjectsMatch subject (Subject schema) = true →
       gojsonschema_Validate (Body schema) (nats.Data m) = Ok result →
       Valid result = false →
       let text := "invalid payload: " +:+ strings.Join (Errors result) ", " in
       ValidatePayload reg order m
       = {| outcome := Returned; inbound_header := nats.Header m;
            trace := [RLock; MapRange; MsgRespond text; RUnlock] |}
       ∧ published (trace (ValidatePayload reg order m)) = []).
Proof.
  intros subject Hlen. split.
  - intros Horder Hnone text.
    assert (Forall (fun s => SubjectsMatch subject (Subject s) = false) order)
      as Hall.
    { apply Forall_forall. intros s Hs.
      apply (range_order_elem reg order s Horder) in Hs as [name Hs]. eauto. }
    rewrite (ValidatePayload_scan reg order m Hlen). fold subject.
    rewrite <- (app_nil_r order), (scan_skip subject m order [] Hall). done.
  - intros pre schema post result -> Hpre Hmatch Hval Hinvalid text.
    rewrite (ValidatePayload_scan reg _ m Hlen). fold subject.
    rewrite (scan_skip subject m pre _ Hpre). simpl.
    unfold validate. rewrite Hmatch, Hval, Hinvalid. done.
Qed.

Lemma audit_header_lookup (schema : Schema)
    (h : option (gmap string (list string))) :
  let header := audit_header schema h in
  header !! "Schema-Name" = Some [Name schema]
  ∧ header !! "Schema-Revision" = Some [Sprintf_d (Revision schema)]
  ∧ header !! "Schema-Subject" = Some [Subject schema]
  ∧ header !! "Schema-Type" = Some [Type_ schema]
  ∧ header !! "Schema-Validated" = Some ["true"]
  ∧ (∀ key, key ∉ ["Schema-Name"; "Schema-Revision"; "Schema-Subject";
                   "Schema-Type"; "Schema-Validated"] →
            header !! key = default ∅ h !! key).
Proof.
  unfold audit_header, nats.Header_Set. split_and!;
    try (by simplify_map_eq).
  intros key Hkey.
  repeat (apply not_elem_of_cons in Hkey as [? Hkey]).
  by rewrite !lookup_insert_ne.
Qed.

(** C5: when the first schema of the iteration whose pattern matches the
    governed subject accepts the payload, exactly one message is
    published: on the governed subject, with the reply subject and the
    payload of the inbound message, and with the inbound headers in which
    [Schema-Name], [Schema-Revision], [Schema-Subject], [Schema-Type] and
    [Schema-Validated] are set to the schema's name, the decimal text of
    its cached revision, its subject pattern, its type and [true]; every
    other header is the inbound one.  The text under [Schema-Revision],
    read as a decimal numeral, is the revision of the cached schema. *)
Theorem ValidatePayload_republishes reg (order pre post : list Schema)
    (schema : Schema) (result : ValidationResult) m :
  let subject := governed_subject (nats.Subject m) in
  (2 ≤ length (strings.Split (nats.Subject m) dot))%nat →
  order = pre ++ schema :: post →
  Forall (fun s => SubjectsMatch subject (Subject s) = false) pre →
  SubjectsMatch subject (Subject schema) = true →
  gojsonschema_Validate (Body schema) (nats.Data m) = Ok result →
  Valid result = true →
  let header := audit_header schema (nats.Header m) in
  let msg := {| nats.Subject := subject; nats.Reply := nats.Reply m;
                nats.Data := nats.Data m; nats.Header := Some header |} in
  published (trace (ValidatePayload reg order m)) = [msg]
  ∧ outcome (ValidatePayload reg order m) = Returned
  ∧ (nc_PublishMsg msg = None →
     trace (ValidatePayload reg order m)
     = [RLock; MapRange; PublishMsg msg; RUnlock])
  ∧ (range_order reg order → ∃ name, schemas reg !! name = Some schema)
  ∧ header !! "Schema-Name" = Some [Name schema]
  ∧ header !! "Schema-Revision" = Some [Sprintf_d (Revision schema)]
  ∧ header !! "Schema-Subject" = Some [Subject schema]
  ∧ header !! "Schema-Type" = Some [Type_ schema]
  ∧ header !! "Schema-Validated" = Some ["true"]
  ∧ (∀ key, key ∉ ["Schema-Name"; "Schema-Revision"; "Schema-Subject";
                   "Schema-Type"; "Schema-Validated"] →
            header !! key = default ∅ (nats.Header m) !! key)
  ∧ (∃ text, header !! "Schema-Revision" = Some [text]
             ∧ N.of_uint <$> NilZero.uint_of_string text
               = Some (Revision schema)).
Proof.
  intros subject Hlen -> Hpre Hmatch Hval Hvalid header msg.
  rewrite (ValidatePayload_scan reg _ m Hlen). fold subject.
  rewrite (scan_skip subject m pre _ Hpre). cbn [scan].
  unfold validate. rewrite Hmatch, Hval, Hvalid. cbn [negb].
  fold header. fold msg. split_and!.
  - by destruct (nc_PublishMsg msg).
  - done.
  - by intros ->.
  - intros Horder. apply (range_order_elem reg _ schema Horder).
    apply elem_of_app. right. left.
  - apply (audit_header_lookup schema (nats.Header m)).
  - apply (audit_header_lookup schema (nats.Header m)).
  - apply (audit_header_lookup schema (nats.Header m)).
  - apply (audit_header_lookup schema (nats.Header m)).
  - apply (audit_header_lookup schema (nats.Header m)).
  - apply (audit_header_lookup schema (nats.Header m)).
  - exists (Sprintf_d (Revision schema)). split.
    + apply (audit_header_lookup schema (nats.Header m)).
    + apply Sprintf_d_decimal.
Qed.

End HandlerFacts.

(** ** The keys of the cache and the keys of the store *)


(** ** The handlers on concrete requests *)

Lemma numbers_request_name : request_name numbers_request = "numbers".
Proof. reflexivity. Qed.

Lemma numbers_registry_order :
  range_order numbers_registry [numbers_schema 1].
Proof. unfold range_order. simpl. by rewrite map_to_list_singleton. Qed.

(** C2 fails on the answer to a conflict: registering a name that the
    bucket holds and registering on a bucket that cannot be reached are
    both answered with the error code 500. *)
Lemma conflict_answered_as_storage_failure :
  ¬ @conflict_answer_claim test_env numbers_bucket offline_bucket numbers_request.
Proof.
  intros Hclaim. apply Hclaim; [done| |done| |].
  - rewrite numbers_request_name. simpl. by rewrite lookup_singleton_eq.
  - by eexists _, _.
  - unfold RegisterSchema. simpl. rewrite numbers_request_name.
    unfold bucket_Create. simpl. by rewrite lookup_singleton_eq.
Qed.

Lemma RegisterSchema_answers_witness :
  (RegisterSchema (env := test_env) (NewSchemaRegistry empty_bucket)
     numbers_request).2
  = [ReqRespondJSON (numbers_schema 1)]
  ∧ (RegisterSchema (env := test_env) numbers_registry numbers_request).2
    = [ReqError "500" ErrKeyExists]
  ∧ (RegisterSchema (env := test_env) numbers_registry
       {| micro.Subject := "$SCHEMA.REGISTER.numbers"; micro.Data := "" |}).2
    = [ReqError "400" "unexpected end of JSON input"].
Proof.
  split_and!.
  - destruct (RegisterSchema_answers (env := test_env)
                (NewSchemaRegistry empty_bucket) numbers_request) as [_ Hreg].
    destruct (Hreg _ _ eq_refl eq_refl)
      as (_ & _ & ->).
    reflexivity.
  - destruct (RegisterSchema_answers (env := test_env)
                numbers_registry numbers_request) as [_ Hreg].
    destruct (Hreg _ _ eq_refl eq_refl)
      as (_ & _ & ->).
    reflexivity.
  - destruct (RegisterSchema_answers (env := test_env) numbers_registry
                {| micro.Subject := "$SCHEMA.REGISTER.numbers"; micro.Data := "" |})
      as [Hbad _].
    by rewrite (Hbad _ eq_refl).
Defined.

Lemma Watch_updates_witness :
  schemas (watch_loop (env := test_env)
             [Update None; Update (Some numbers_deleted);
              Update (Some numbers_entry); Update (Some misnamed_entry)]
             (NewSchemaRegistry empty_bucket)).1
  = {[ "numbers" := numbers_schema 3 ]}
  ∧ schemas (watch_loop (env := test_env)
               [Update (Some numbers_entry); Update (Some numbers_deleted)]
               (NewSchemaRegistry empty_bucket)).1 !! "numbers"
    = Some (numbers_schema 1)
  ∧ watch_update (env := test_env) (Some numbers_deleted) numbers_registry
    = (numbers_registry, [Log "error unmarshaling schema: unexpected end of JSON input"]).
Proof.
  split_and!.
  - destruct (Watch_updates (env := test_env) numbers_entry []
                [Update None; Update (Some numbers_deleted);
                 Update (Some numbers_entry); Update (Some misnamed_entry)]
                (NewSchemaRegistry empty_bucket)) as (_ & _ & _ & _ & Hturns & _).
    rewrite Hturns by (by repeat constructor). simpl.
    by rewrite insert_insert_eq, insert_empty.
  - destruct (Watch_updates (env := test_env) numbers_entry
                [Update (Some numbers_deleted)] []
                (NewSchemaRegistry empty_bucket)) as (Hok & _).
    destruct (Hok _ eq_refl) as (_ & _ & _ & ->). cbn [fst].
    destruct (Watch_updates (env := test_env) numbers_deleted [] []
                {| kv := empty_bucket;
                   schemas := <[ "numbers" := numbers_schema 1 ]> ∅ |})
      as (_ & Hbad & _).
    destruct (Hbad _ eq_refl) as [_ Hskip].
    etrans; [exact (f_equal (fun p => schemas p.1 !! "numbers") Hskip)|].
    simpl. apply lookup_insert_eq.
  - destruct (Watch_updates (env := test_env) numbers_deleted [] []
                numbers_registry) as (_ & Hbad & _).
    destruct (Hbad _ eq_refl) as [Hskip _]. exact Hskip.
Defined.

Lemma Unregister_leaves_cache_witness :
  is_Some
    (schemas
       (watch_loop (env := test_env) [Update (Some numbers_deleted)]
          (UnregisterSchema numbers_registry
             {| micro.Subject := "$SCHEMA.UNREGISTER.numbers";
                micro.Data := "" |}).1).1 !! "numbers")
  ∧ request_name {| micro.Subject := "$SCHEMA.UNREGISTER" +:+ "." +:+ "letters";
                    micro.Data := "" |} = "letters".
Proof.
  split.
  - apply (Unregister_leaves_cache (env := test_env)).
    simpl. rewrite lookup_singleton_eq. by eexists.
  - by apply (Unregister_leaves_cache (env := test_env) [] numbers_registry
                {| micro.Subject := "$SCHEMA.UNREGISTER" +:+ "." +:+ "letters";
                   micro.Data := "" |}) with "$SCHEMA.UNREGISTER".
Defined.


Lemma ValidatePayload_failures_witness :
  trace (ValidatePayload (env := test_env) numbers_registry [numbers_schema 1]
           (validate_message "$SCHEMA.VALIDATE.letters.a" "1"))
  = [RLock; MapRange;
     Println ("could not find schema for subject " +:+ test_Quote "letters.a");
     MsgRespond ("could not find schema for subject " +:+ test_Quote "letters.a");
     RUnlock]
  ∧ trace (ValidatePayload (env := test_env) numbers_registry [numbers_schema 1]
             (validate_message "$SCHEMA.VALIDATE.numbers.foobar" "x"))
    = [RLock; MapRange;
       MsgRespond "invalid payload: (root): Invalid type. Expected: number, (root): Must be greater than 0";
       RUnlock].
Proof.
  split.
  - destruct (ValidatePayload_failures (env := test_env) numbers_registry
                [numbers_schema 1]
                (validate_message "$SCHEMA.VALIDATE.letters.a" "1"))
      as [Hnone _]; [vm_compute; lia|].
    destruct Hnone as [-> _]; [apply numbers_registry_order| |done].
    intros name s Hs. simpl in Hs.
    apply lookup_singleton_Some in Hs as [_ <-]. reflexivity.
  - destruct (ValidatePayload_failures (env := test_env) numbers_registry
                [numbers_schema 1]
                (validate_message "$SCHEMA.VALIDATE.numbers.foobar" "x"))
      as [_ Hbad]; [vm_compute; lia|].
    destruct (Hbad [] (numbers_schema 1) [] _ eq_refl (Forall_nil_2 _)
                eq_refl eq_refl eq_refl) as [-> _].
    reflexivity.
Defined.

Lemma ValidatePayload_republishes_witness :
  published
    (trace (ValidatePayload (env := test_env) numbers_registry [numbers_schema 42]
              (validate_message "$SCHEMA.VALIDATE.numbers.foobar" "1")))
  = [ {| nats.Subject := "numbers.foobar"; nats.Reply := "_INBOX.caller";
         nats.Data := "1";
         nats.Header := Some (audit_header (numbers_schema 42) None) |} ]
  ∧ audit_header (numbers_schema 42) None !! "Schema-Revision" = Some ["42"]
  ∧ audit_header (numbers_schema 1) None !! "Schema-Revision" = Some ["1"].
Proof.
  destruct (ValidatePayload_republishes (env := test_env) numbers_registry
              [numbers_schema 42] [] [] (numbers_schema 42)
              {| Valid := true; Errors := [] |}
              (validate_message "$SCHEMA.VALIDATE.numbers.foobar" "1"))
    as (Hpub & _ & _ & _ & _ & Hrev & _);
    [vm_compute; lia | done | constructor | done..|].
  destruct (ValidatePayload_republishes (env := test_env) numbers_registry
              [numbers_schema 1] [] [] (numbers_schema 1)
              {| Valid := true; Errors := [] |}
              (validate_message "$SCHEMA.VALIDATE.numbers.foobar" "1"))
    as (_ & _ & _ & _ & _ & Hrev1 & _);
    [vm_compute; lia | done | constructor | done..|].
  split_and!; [exact Hpub | exact Hrev | exact Hrev1].
Defined.

(** * Further properties of the code *)

(** ** The subject matcher, completely *)

Lemma agree_before_cons (k : nat) (w l : string) (ws ls : list string) :
  token_matches w l → agree_before k ls ws →
  agree_before (S k) (l :: ls) (w :: ws).
Proof.
  intros Hwl Hrest [|i] w' l' Hi Hw Hl; simplify_eq/=; [done|].
  apply (Hrest i); [lia|done..].
Qed.

Lemma walk_true_inv (ls ws : list string) :
  walk ls ws = true →
  ((length ws ≤ length ls)%nat ∧ agree_before (length ws) ls ws)
  ∨ (∃ k, (k < length ls)%nat ∧ ws !! k = Some ">" ∧ agree_before k ls ws).
Proof.
  revert ls. induction ws as [|w ws IH]; intros ls Hwalk.
  - left. split; [simpl; lia|]. intros i w l Hi. simpl in Hi. lia.
  - destruct ls as [|l ls]; [done|].
    assert (token_matches w l ∧ walk ls ws = true ∨ w = ">") as [[Hwl Hrest]| ->].
    { simpl in Hwalk. destruct (String.eqb_spec w "*") as [->|_].
      - left. split; [by left|done].
      - destruct (String.eqb_spec w ">") as [->|_]; [by right|].
        destruct (String.eqb_spec l w) as [->|_]; [|done].
        left. split; [by right|done]. }
    + destruct (IH ls Hrest) as [[Hlen Hagree]|(k & Hk & Hgt & Hagree)].
      * left. split; [simpl; lia|]. by apply agree_before_cons.
      * right. exists (S k). split_and!; [simpl; lia|done|].
        by apply agree_before_cons.
    + right. exists 0%nat. split_and!; [simpl; lia|done|].
      intros i w l' Hi. lia.
Qed.

(** X1: [SubjectsMatch] accepts exactly in two cases: the pattern is no
    longer than the literal and each of its tokens is ["*"] or the
    literal's token at its position; or the pattern has a [">"] at a
    position where the literal has a token, behind tokens that are ["*"] or
    the literal's. *)
Theorem SubjectsMatch_characterised (L P : string) :
  let lparts := strings.Split L dot in
  let wparts := strings.Split P dot in
  SubjectsMatch L P = true
  ↔ ((length wparts ≤ length lparts)%nat
     ∧ agree_before (length wparts) lparts wparts)
    ∨ (∃ k, (k < length lparts)%nat ∧ wparts !! k = Some ">"
            ∧ agree_before k lparts wparts).
Proof.
  intros lparts wparts. rewrite SubjectsMatch_walk. fold lparts wparts. split.
  - apply walk_true_inv.
  - intros [[Hlen Hagree]|(k & Hk & Hgt & Hagree)].
    + apply walk_prefix; [done|].
      intros i w l Hw Hl. apply (Hagree i); [|done..].
      by apply lookup_lt_Some in Hw.
    + by apply (walk_reaches_tail _ _ k).
Qed.

Lemma SubjectsMatch_characterised_witness :
  SubjectsMatch "orders.eu.new" "orders.*.new" = true.
Proof.
  apply SubjectsMatch_characterised. left. split; [vm_compute; lia|].
  intros [|[|[|i]]] w l Hi Hw Hl; vm_compute in Hw, Hl; simplify_eq;
    [by right|by left|by right].
Defined.

(** X2: the comparison of the two strings at the head of [SubjectsMatch]
    never decides anything: the loop over the tokens alone gives the same
    result on every pair of strings. *)
Theorem SubjectsMatch_fast_path_redundant (L P : string) :
  SubjectsMatch L P
  = match_from (strings.Split L dot) 0 (strings.Split P dot).
Proof. by rewrite SubjectsMatch_walk, match_from_walk. Qed.

Lemma walk_more_literal (ls extra ws : list string) :
  walk ls ws = true → walk (ls ++ extra) ws = true.
Proof.
  revert ls. induction ws as [|w ws IH]; intros ls Hwalk; [done|].
  destruct ls as [|l ls]; [done|]. simpl in *.
  destruct (String.eqb w "*"); [by apply IH|].
  destruct (String.eqb w ">"); [done|].
  destruct (String.eqb l w); [by apply IH|done].
Qed.

(** X3: a literal that a pattern accepts is still accepted with anything
    appended behind a further dot. *)
Theorem SubjectsMatch_longer_literal (L P more : string) :
  SubjectsMatch L P = true →
  SubjectsMatch (L +:+ "." +:+ more) P = true.
Proof.
  rewrite !SubjectsMatch_walk, Split_append. apply walk_more_literal.
Qed.

Lemma SubjectsMatch_longer_literal_witness :
  SubjectsMatch ("orders.new" +:+ "." +:+ "eu.west") "orders.*" = true.
Proof. by apply SubjectsMatch_longer_literal. Defined.

(** ** The name a request addresses *)

(** X4: the name of a request is what stands behind the last dot of its
    subject, and it never has a dot in it: for a subject [prefix.name]
    with [name] free of dots it is [name], whatever the prefix. *)
Theorem request_name_last_token (r : micro.Request) :
  is_token (request_name r) = true
  ∧ (∀ prefix name data,
       is_token name = true →
       request_name {| micro.Subject := prefix +:+ "." +:+ name;
                       micro.Data := data |} = name).
Proof.
  split.
  - unfold request_name.
    pose proof (Split_tokens (micro.Subject r)) as Htok.
    pose proof (Split_length_pos (micro.Subject r) dot) as Hpos.
    rewrite Forall_lookup in Htok.
    destruct (lookup_lt_is_Some_2 (strings.Split (micro.Subject r) dot)
                (length (strings.Split (micro.Subject r) dot) - 1)) as [t Ht];
      [lia|].
    rewrite nth_lookup, Ht. simpl. by apply (Htok _ _ Ht).
  - intros prefix name data Hname. unfold request_name. simpl.
    rewrite Split_append, (Split_one_token name Hname).
    rewrite length_app. simpl.
    rewrite nth_lookup, lookup_app_r by lia.
    replace (_ - _)%nat with 0%nat by lia. done.
Qed.

Lemma request_name_last_token_witness :
  request_name {| micro.Subject := "$SCHEMA.GET" +:+ "." +:+ "numbers";
                  micro.Data := "" |} = "numbers".
Proof.
  by apply (proj2 (request_name_last_token numbers_request)).
Defined.

(** ** Validation requests *)

Lemma Split_dotted (s : string) :
  is_token s = false → (2 ≤ length (strings.Split s dot))%nat.
Proof.
  induction s as [|c s IH]; [done|]. simpl. fold dot.
  destruct (Ascii.eqb c dot); simpl.
  - intros _. pose proof (Split_length_pos s dot). lia.
  - intros Hs. specialize (IH Hs).
    destruct (strings.Split s dot); simpl in *; lia.
Qed.

Lemma scan_first_match `{env : Env} (subject : string) (m : nats.Msg)
    (schema : Schema) (post : list Schema) :
  SubjectsMatch subject (Subject schema) = true →
  scan subject m (schema :: post) = scan subject m [schema].
Proof. intros Hmatch. simpl. by rewrite Hmatch. Qed.

(** X5: a message whose subject the subscription subject
    [$SCHEMA.VALIDATE.>] accepts is handled without a panic, and its
    subject is [$SCHEMA.VALIDATE.] followed by the governed subject. *)
Theorem ValidatePayload_subscribed `{env : Env} {KV : Type}
    (reg : SchemaRegistry KV) (order : list Schema) (m : nats.Msg) :
  SubjectsMatch (nats.Subject m) "$SCHEMA.VALIDATE.>" = true →
  outcome (ValidatePayload reg order m) = Returned
  ∧ nats.Subject m = "$SCHEMA.VALIDATE." +:+ governed_subject (nats.Subject m).
Proof.
  rewrite SubjectsMatch_walk. intros Hwalk.
  pose proof (Join_Split (nats.Subject m)) as Hjoin.
  unfold ValidatePayload, governed_subject.
  destruct (strings.Split (nats.Subject m) dot) as [|a [|b [|c rest]]];
    try done; simpl in Hwalk.
  - by destruct (String.eqb a "$SCHEMA").
  - by destruct (String.eqb a "$SCHEMA"), (String.eqb b "VALIDATE").
  - destruct (String.eqb_spec a "$SCHEMA") as [->|]; [|done].
    destruct (String.eqb_spec b "VALIDATE") as [->|]; [|done].
    split; [simpl; by destruct (scan _ m order)|].
    rewrite <- Hjoin at 1. done.
Qed.

Lemma ValidatePayload_subscribed_witness :
  "$SCHEMA.VALIDATE.numbers.foobar" = "$SCHEMA.VALIDATE." +:+ "numbers.foobar".
Proof.
  apply (ValidatePayload_subscribed (env := test_env) numbers_registry []
           (validate_message "$SCHEMA.VALIDATE.numbers.foobar" "1")).
  reflexivity.
Defined.

(** X6: [ValidatePayload] panics exactly on a subject without a dot; it
    has then taken and released the read lock and has neither answered nor
    published nor touched the headers. *)
Theorem ValidatePayload_panics `{env : Env} {KV : Type}
    (reg : SchemaRegistry KV) (order : list Schema) (m : nats.Msg) :
  (outcome (ValidatePayload reg order m) = Panicked
   ↔ is_token (nats.Subject m) = true)
  ∧ (outcome (ValidatePayload reg order m) = Panicked →
     trace (ValidatePayload reg order m) = [RLock; RUnlock]
     ∧ inbound_header (ValidatePayload reg order m) = nats.Header m).
Proof.
  unfold ValidatePayload.
  destruct (Nat.ltb_spec (length (strings.Split (nats.Subject m) dot)) 2)
    as [Hlt|Hge]; simpl.
  - split; [|done]. split; [|done]. intros _.
    destruct (is_token (nats.Subject m)) eqn:Htok; [done|].
    apply Split_dotted in Htok. lia.
  - destruct (scan _ m order) as [header evs]. simpl.
    split; [|done]. split; [done|]. intros Htok.
    rewrite (Split_one_token _ Htok) in Hge. simpl in Hge. lia.
Qed.

Lemma ValidatePayload_panics_witness :
  trace (ValidatePayload (env := test_env) numbers_registry [numbers_schema 1]
           (validate_message "numbers" "1")) = [RLock; RUnlock].
Proof.
  apply (ValidatePayload_panics (env := test_env)).
  by apply (ValidatePayload_panics (env := test_env)).
Defined.

(** X7: the first schema of the iteration whose pattern accepts the
    governed subject decides alone: the schemas before it that do not
    match and all the schemas behind it, matching or not, change nothing
    in what the call does. *)
Theorem ValidatePayload_first_match_decides `{env : Env} {KV : Type}
    (reg : SchemaRegistry KV) (pre post : list Schema) (schema : Schema)
    (m : nats.Msg) :
  let subject := governed_subject (nats.Subject m) in
  Forall (fun s => SubjectsMatch subject (Subject s) = false) pre →
  SubjectsMatch subject (Subject schema) = true →
  ValidatePayload reg (pre ++ schema :: post) m
  = ValidatePayload reg [schema] m.
Proof.
  intros subject Hpre Hmatch. unfold ValidatePayload.
  destruct (_ <? 2)%nat; [done|].
  change (strings.Join _ ".") with subject.
  by rewrite (scan_skip subject m pre _ Hpre), (scan_first_match _ _ _ post).
Qed.

Lemma ValidatePayload_first_match_decides_witness :
  ValidatePayload (env := test_env) numbers_registry
    ([letters_schema 4] ++ numbers_schema 1 :: [numbers_schema 2])
    (validate_message "$SCHEMA.VALIDATE.numbers.foobar" "x")
  = ValidatePayload (env := test_env) numbers_registry [numbers_schema 1]
      (validate_message "$SCHEMA.VALIDATE.numbers.foobar" "x").
Proof.
  apply (ValidatePayload_first_match_decides (env := test_env)); [|done].
  by repeat constructor.
Defined.

Section DispatchPaths.

Context `{env : Env} {KV : Type}.

Implicit Types (reg : SchemaRegistry KV) (m : nats.Msg).

(** X8: when the validator cannot run on the payload of the first matching
    schema (it returns an error, not a result), the caller gets the text
    of that error as it is, nothing is published and the headers stay. *)
Theorem ValidatePayload_validator_error reg (pre post : list Schema)
    (schema : Schema) (err : string) m :
  let subject := governed_subject (nats.Subject m) in
  (2 ≤ length (strings.Split (nats.Subject m) dot))%nat →
  Forall (fun s => SubjectsMatch subject (Subject s) = false) pre →
  SubjectsMatch subject (Subject schema) = true →
  gojsonschema_Validate (Body schema) (nats.Data m) = Err err →
  ValidatePayload reg (pre ++ schema :: post) m
  = {| outcome := Returned; inbound_header := nats.Header m;
       trace := [RLock; MapRange; MsgRespond err; RUnlock] |}.
Proof.
  intros subject Hlen Hpre Hmatch Herr.
  rewrite (ValidatePayload_scan reg _ m Hlen). fold subject.
  rewrite (scan_skip subject m pre _ Hpre). simpl.
  unfold validate. by rewrite Hmatch, Herr.
Qed.

(** X9: when the payload is valid and publishing fails, the failure is
    logged and its text is sent to the caller, after the one attempt to
    publish. *)
Theorem ValidatePayload_publish_failure reg (pre post : list Schema)
    (schema : Schema) (result : ValidationResult) (err : string) m :
  let subject := governed_subject (nats.Subject m) in
  let msg := {| nats.Subject := subject; nats.Reply := nats.Reply m;
                nats.Data := nats.Data m;
                nats.Header := Some (audit_header schema (nats.Header m)) |} in
  (2 ≤ length (strings.Split (nats.Subject m) dot))%nat →
  Forall (fun s => SubjectsMatch subject (Subject s) = false) pre →
  SubjectsMatch subject (Subject schema) = true →
  gojsonschema_Validate (Body schema) (nats.Data m) = Ok result →
  Valid result = true →
  nc_PublishMsg msg = Some err →
  trace (ValidatePayload reg (pre ++ schema :: post) m)
  = [RLock; MapRange; PublishMsg msg;
     Log ("error publishing message: " +:+ err); MsgRespond err; RUnlock].
Proof.
  intros subject msg Hlen Hpre Hmatch Hval Hvalid Hpub.
  rewrite (ValidatePayload_scan reg _ m Hlen). fold subject.
  rewrite (scan_skip subject m pre _ Hpre). cbn [scan].
  unfold validate. rewrite Hmatch, Hval, Hvalid. cbn [negb].
  fold msg. by rewrite Hpub.
Qed.

(** X10: on a valid payload the audit headers are written into the header
    map of the inbound message itself when it has one, the outgoing
    message sharing that map; an inbound message without headers stays
    without. *)
Theorem ValidatePayload_shares_header reg (pre post : list Schema)
    (schema : Schema) (result : ValidationResult) m :
  let subject := governed_subject (nats.Subject m) in
  (2 ≤ length (strings.Split (nats.Subject m) dot))%nat →
  Forall (fun s => SubjectsMatch subject (Subject s) = false) pre →
  SubjectsMatch subject (Subject schema) = true →
  gojsonschema_Validate (Body schema) (nats.Data m) = Ok result →
  Valid result = true →
  inbound_header (ValidatePayload reg (pre ++ schema :: post) m)
  = match nats.Header m with
    | Some h => Some (audit_header schema (Some h))
    | None => None
    end.
Proof.
  intros subject Hlen Hpre Hmatch Hval Hvalid.
  rewrite (ValidatePayload_scan reg _ m Hlen). fold subject.
  rewrite (scan_skip subject m pre _ Hpre). cbn [scan].
  unfold validate. rewrite Hmatch, Hval, Hvalid. cbn [negb].
  destruct (nc_PublishMsg _); by destruct (nats.Header m).
Qed.

Lemma scan_effects (subject : string) m (order : list Schema) :
  let header := (scan subject m order).1 in
  let evs := (scan subject m order).2 in
  stored evs = []
  ∧ (length (published evs) ≤ 1)%nat
  ∧ (length (responded evs) ≤ 1)%nat
  ∧ (1 ≤ length (published evs) + length (responded evs))%nat
  ∧ (published evs = [] → header = nats.Header m).
Proof.
  induction order as [|schema order IH]; simpl.
  - split_and!; simpl; done || lia.
  - destruct (SubjectsMatch subject (Subject schema)); simpl; [|apply IH].
    destruct (validate (nats.Data m) schema); simpl.
    + split_and!; simpl; done || lia.
    + destruct (nc_PublishMsg _); simpl; split_and!; simpl; done || lia.
Qed.

(** X11: whatever the cache, the order of the iteration and the message,
    [ValidatePayload] never writes the cache, calls [PublishMsg] at most
    once and answers the caller at most once; when it returns it has
    done at least one of the two, and when it has made no call of
    [PublishMsg] the headers of the inbound message are as they were.  (A
    call of [PublishMsg] that fails comes after the audit headers were
    set, see X9 and X10.) *)
Theorem ValidatePayload_answers_once reg (order : list Schema) m :
  let call := ValidatePayload reg order m in
  stored (trace call) = []
  ∧ (length (published (trace call)) ≤ 1)%nat
  ∧ (length (responded (trace call)) ≤ 1)%nat
  ∧ (outcome call = Returned →
     (1 ≤ length (published (trace call)) + length (responded (trace call)))%nat)
  ∧ (published (trace call) = [] → inbound_header call = nats.Header m).
Proof.
  unfold ValidatePayload.
  destruct (_ <? 2)%nat; [simpl; split_and!; done || lia|].
  set (subject := strings.Join _ _).
  pose proof (scan_effects subject m order) as Heff.
  destruct (scan subject m order) as [header evs]. simpl in *.
  unfold stored, published, responded in *.
  rewrite !omap_app. simpl. rewrite !app_nil_r.
  destruct Heff as (Hst & Hpub & Hresp & Hone & Hhdr). by split_and!.
Qed.

End DispatchPaths.

Lemma ValidatePayload_validator_error_witness :
  trace (ValidatePayload (env := test_env) numbers_registry
           ([] ++ numbers_schema 1 :: [])
           (validate_message "$SCHEMA.VALIDATE.numbers.foobar" "abc"))
  = [RLock; MapRange;
     MsgRespond "invalid character 'a' looking for beginning of value";
     RUnlock].
Proof.
  rewrite (ValidatePayload_validator_error (env := test_env) numbers_registry
             [] [] (numbers_schema 1)
             "invalid character 'a' looking for beginning of value");
    [done | vm_compute; lia | constructor | done | done].
Defined.

(** The test environment with a connection that is closed. *)
Lemma ValidatePayload_publish_failure_witness :
  let closed := {| json_Unmarshal := test_Unmarshal;
                   json_Marshal := test_Marshal;
                   gojsonschema_Validate := test_Validate;
                   strconv_Quote := test_Quote;
                   nc_PublishMsg := fun _ => Some "nats: connection closed" |} in
  responded
    (trace (ValidatePayload (env := closed) numbers_registry
              ([] ++ numbers_schema 1 :: [])
              (validate_message "$SCHEMA.VALIDATE.numbers.foobar" "1")))
  = ["nats: connection closed"].
Proof.
  intros closed.
  rewrite (ValidatePayload_publish_failure (env := closed) numbers_registry
             [] [] (numbers_schema 1) {| Valid := true; Errors := [] |}
             "nats: connection closed");
    [done | vm_compute; lia | constructor | done..].
Defined.

Lemma ValidatePayload_shares_header_witness :
  inbound_header
    (ValidatePayload (env := test_env) numbers_registry
       ([] ++ numbers_schema 1 :: [])
       {| nats.Subject := "$SCHEMA.VALIDATE.numbers.foobar";
          nats.Reply := ""; nats.Data := "1"; nats.Header := Some ∅ |})
  = Some (audit_header (numbers_schema 1) (Some ∅)).
Proof.
  rewrite (ValidatePayload_shares_header (env := test_env) numbers_registry
             [] [] (numbers_schema 1) {| Valid := true; Errors := [] |});
    [done | vm_compute; lia | constructor | done..].
Defined.

Lemma ValidatePayload_answers_once_witness :
  (1 ≤ length (published (trace (ValidatePayload (env := test_env)
                 numbers_registry [numbers_schema 1]
                 (validate_message "$SCHEMA.VALIDATE.numbers.foobar" "1"))))
       + length (responded (trace (ValidatePayload (env := test_env)
                 numbers_registry [numbers_schema 1]
                 (validate_message "$SCHEMA.VALIDATE.numbers.foobar" "1")))))%nat.
Proof.
  by apply (ValidatePayload_answers_once (env := test_env)).
Defined.

(** ** The loop of [Watch] over many updates *)

Section WatchRuns.

Context `{env : Env} {KV : Type}.

Implicit Types (reg : SchemaRegistry KV) (sel : list Selected).

Lemma watch_loop_app (pre rest : list Selected) reg :
  Forall is_update pre →
  (watch_loop (pre ++ rest) reg).1
  = (watch_loop rest (watch_loop pre reg).1).1.
Proof.
  intros Hpre. revert reg.
  induction Hpre as [|[| |entry] pre Hup _ IH]; intros reg; try done.
  rewrite <- app_comm_cons, !watch_loop_cons. simpl. apply IH.
Qed.

Lemma watch_loop_keeps_name (name : string) (post : list Selected) reg :
  Forall (keeps_name name) post →
  schemas (watch_loop post reg).1 !! name = schemas reg !! name.
Proof.
  intros Hpost. revert reg.
  induction Hpost as [|[| |entry] post Hkeep _ IH]; intros reg; try done.
  rewrite watch_loop_cons. simpl. rewrite IH.
  destruct entry as [entry|]; [|done]. simpl in *.
  destruct (json_Unmarshal (nats.Value entry)) as [schema|err]; [|done].
  simpl. by rewrite lookup_insert_ne.
Qed.

(** X12: the loop ends at a cancelled context and at a closed channel:
    what stands behind either in the sequence of received values has no
    effect on the registry and leaves no event; and [Watch] without a
    watcher returns the error of the store and starts no loop. *)
Theorem Watch_stops (pre rest : list Selected) reg (err : string) :
  watch_loop (pre ++ CtxDone :: rest) reg = watch_loop pre reg
  ∧ watch_loop (pre ++ ChanClosed :: rest) reg = watch_loop pre reg
  ∧ Watch (Err err) reg = (Some err, reg, []).
Proof.
  split_and!; [| |done];
    revert reg; induction pre as [|[| |entry] pre IH]; intros reg; try done;
    rewrite <- app_comm_cons, !watch_loop_cons; by rewrite !IH.
Qed.

(** X13: the loop keeps every record of the cache under the name that the
    record itself carries; so on a registry that started empty, a schema
    that [GetSchema] answers with has the name that was asked for. *)
Theorem Watch_keeps_keys_named sel reg :
  keys_named (schemas reg) →
  keys_named (schemas (watch_loop sel reg).1)
  ∧ (∀ r schema,
       ReqRespondJSON schema ∈ (GetSchema (watch_loop sel reg).1 r).2 →
       Name schema = request_name r).
Proof.
  intros Hnamed.
  assert (keys_named (schemas (watch_loop sel reg).1)) as Hafter.
  { revert reg Hnamed.
    induction sel as [|[| |entry] sel IH]; intros reg Hnamed; try done.
    rewrite watch_loop_cons. simpl. apply IH.
    destruct entry as [entry|]; [|done]. simpl.
    destruct (json_Unmarshal (nats.Value entry)) as [schema|err]; [|done].
    simpl. intros name s [[<- <-]|[_ Hs]]%lookup_insert_Some; [done|].
    by apply Hnamed. }
  split; [done|]. intros r schema. unfold GetSchema.
  destruct (schemas (watch_loop sel reg).1 !! request_name r) as [s|] eqn:Hs;
    simpl; intros Hin.
  - apply elem_of_cons in Hin as [|Hin]; [done|].
    apply list_elem_of_singleton in Hin as [= ->]. by apply Hafter.
  - apply elem_of_cons in Hin as [|Hin]; [done|].
    by apply list_elem_of_singleton in Hin.
Qed.

(** X14: the loop makes up no record: every record in the cache after the
    loop was in the cache before, or is the decoded payload of an entry
    that the loop received, with the revision of that entry. *)
Theorem Watch_provenance sel reg (name : string) (cached : Schema) :
  schemas (watch_loop sel reg).1 !! name = Some cached →
  schemas reg !! name = Some cached
  ∨ ∃ entry schema,
      Update (Some entry) ∈ sel
      ∧ json_Unmarshal (nats.Value entry) = Ok schema
      ∧ cached = set_Revision (nats.Revision entry) schema.
Proof.
  revert reg. induction sel as [|[| |entry] sel IH]; intros reg Hc;
    try (by left).
  rewrite watch_loop_cons in Hc. simpl in Hc.
  destruct (IH _ Hc) as [Hbefore|(e & s & Hin & Hdec & ->)].
  - destruct entry as [entry|]; [|by left]. simpl in Hbefore.
    destruct (json_Unmarshal (nats.Value entry)) as [schema|err] eqn:Hdec;
      [|by left].
    simpl in Hbefore.
    apply lookup_insert_Some in Hbefore as [[_ <-]|[_ Hold]]; [|by left].
    right. exists entry, schema. split_and!; [left|done..].
  - right. exists e, s. split_and!; [by right|done..].
Qed.

(** X15: the last update that stores under a name is what the cache holds
    for it: after an entry whose payload decodes, followed only by values
    that store nothing under that name, the cache has the decoded payload
    with the revision of that entry, whatever was received before. *)
Theorem Watch_last_update_wins (pre post : list Selected)
    (entry : nats.KeyValueEntry) (schema : Schema) reg :
  Forall is_update pre →
  json_Unmarshal (nats.Value entry) = Ok schema →
  Forall (keeps_name (Name schema)) post →
  schemas (watch_loop (pre ++ Update (Some entry) :: post) reg).1
    !! Name schema
  = Some (set_Revision (nats.Revision entry) schema).
Proof.
  intros Hpre Hdec Hpost.
  rewrite (watch_loop_app pre _ reg Hpre), watch_loop_cons. cbn [fst].
  rewrite (watch_loop_keeps_name _ post _ Hpost).
  simpl. rewrite Hdec. simpl. apply lookup_insert_eq.
Qed.

End WatchRuns.

Lemma Watch_keeps_keys_named_witness :
  keys_named
    (schemas (watch_loop (env := test_env)
                [Update (Some numbers_entry); Update (Some misnamed_entry)]
                (NewSchemaRegistry empty_bucket)).1).
Proof.
  apply (Watch_keeps_keys_named (env := test_env)).
  intros name schema Hs. simpl in Hs. by rewrite lookup_empty in Hs.
Defined.

Lemma Watch_provenance_witness :
  schemas numbers_registry !! "numbers" = Some (numbers_schema 1)
  ∨ ∃ entry schema,
      Update (Some entry) ∈ [Update (Some numbers_deleted)]
      ∧ test_Unmarshal (nats.Value entry) = Ok schema
      ∧ numbers_schema 1 = set_Revision (nats.Revision entry) schema.
Proof.
  apply (Watch_provenance (env := test_env) [Update (Some numbers_deleted)]
           numbers_registry "numbers" (numbers_schema 1)).
  simpl. by rewrite lookup_singleton_eq.
Defined.

Lemma Watch_last_update_wins_witness :
  schemas (watch_loop (env := test_env)
             ([Update None] ++ Update (Some misnamed_entry)
                :: [Update (Some numbers_deleted); CtxDone])
             numbers_registry).1 !! "numbers"
  = Some (numbers_schema 3).
Proof.
  apply (Watch_last_update_wins (env := test_env) [Update None]
           [Update (Some numbers_deleted); CtxDone] misnamed_entry
           (numbers_schema 0) numbers_registry).
  - by repeat constructor.
  - reflexivity.
  - by repeat constructor.
Defined.

(** ** The endpoints of the service *)

Section EndpointFacts.

Context `{env : Env} {KV : Type} `{store : !nats.KeyValue KV}.

Implicit Types (reg : SchemaRegistry KV) (r : micro.Request).

Lemma RegisterSchema_cache reg r :
  schemas (RegisterSchema reg r).1 = schemas reg.
Proof.
  unfold RegisterSchema.
  destruct (json_Unmarshal (micro.Data r)) as [schema|]; [|done].
  destruct (json_Marshal _) as [data|]; [|done].
  by destruct (nats.Create _ _ _) as [kv' [rev|err]].
Qed.

Lemma UpdateSchema_cache reg r :
  schemas (UpdateSchema reg r).1 = schemas reg.
Proof.
  unfold UpdateSchema.
  destruct (json_Unmarshal (micro.Data r)) as [schema|]; [|done].
  destruct (json_Marshal _) as [data|]; [|done].
  by destruct (nats.Put _ _ _) as [kv' [rev|err]].
Qed.

Lemma UnregisterSchema_cache reg r :
  schemas (UnregisterSchema reg r).1 = schemas reg.
Proof.
  unfold UnregisterSchema. by destruct (nats.Delete _ _) as [kv' [err|]].
Qed.

Lemma GetSchema_of_cache (reg reg' : SchemaRegistry KV) r :
  schemas reg = schemas reg' → (GetSchema reg r).2 = (GetSchema reg' r).2.
Proof.
  intros Heq. unfold GetSchema. rewrite Heq.
  by destruct (schemas reg' !! request_name r).
Qed.

Lemma watch_loop_kv (sel : list Selected) reg :
  kv (watch_loop sel reg).1 = kv reg.
Proof.
  revert reg. induction sel as [|[| |entry] sel IH]; intros reg; try done.
  rewrite watch_loop_cons. simpl. by rewrite IH, watch_update_kv.
Qed.

(** X16: the store and the cache are changed from two sides only: no
    registration, update or unregistration changes what [GetSchema]
    answers afterwards, for any name, and [GetSchema] changes nothing at
    all; the loop of [Watch] never changes the store. *)
Theorem store_and_cache_apart reg (r r' : micro.Request) (sel : list Selected) :
  (GetSchema (RegisterSchema reg r).1 r').2 = (GetSchema reg r').2
  ∧ (GetSchema (UpdateSchema reg r).1 r').2 = (GetSchema reg r').2
  ∧ (GetSchema (UnregisterSchema reg r).1 r').2 = (GetSchema reg r').2
  ∧ (GetSchema reg r).1 = reg
  ∧ kv (watch_loop sel reg).1 = kv reg.
Proof.
  split_and!.
  - apply GetSchema_of_cache, RegisterSchema_cache.
  - apply GetSchema_of_cache, UpdateSchema_cache.
  - apply GetSchema_of_cache, UnregisterSchema_cache.
  - unfold GetSchema. by destruct (schemas reg !! request_name r).
  - apply watch_loop_kv.
Qed.

(** X17: [GetSchema] answers 404 exactly for a name that is not in the
    cache; once the loop of [Watch] has stored an update, a request for
    the name in its payload is answered with the decoded payload at the
    revision of the entry. *)
Theorem GetSchema_lookup reg r :
  (error_code (GetSchema reg r).2 = Some "404"
   ↔ schemas reg !! request_name r = None)
  ∧ (∀ cached, schemas reg !! request_name r = Some cached →
       (GetSchema reg r).2
       = [MapLookup (request_name r); ReqRespondJSON cached])
  ∧ (∀ entry schema,
       json_Unmarshal (nats.Value entry) = Ok schema →
       request_name r = Name schema →
       (GetSchema (watch_update (Some entry) reg).1 r).2
       = [MapLookup (Name schema);
          ReqRespondJSON (set_Revision (nats.Revision entry) schema)]).
Proof.
  split_and!.
  - unfold GetSchema. by destruct (schemas reg !! request_name r).
  - intros cached Hc. unfold GetSchema. by rewrite Hc.
  - intros entry schema Hdec Hname. unfold GetSchema. simpl.
    rewrite Hdec, Hname. simpl. by rewrite lookup_insert_eq.
Qed.

(** X18: the name in the body of a registration or an update is ignored:
    two bodies that decode to schemas which differ in their name only are
    handled alike on the same subject. *)
Theorem body_name_ignored reg (subject data1 data2 : string)
    (schema1 schema2 : Schema) :
  json_Unmarshal data1 = Ok schema1 →
  json_Unmarshal data2 = Ok schema2 →
  set_Name "" schema1 = set_Name "" schema2 →
  RegisterSchema reg {| micro.Subject := subject; micro.Data := data1 |}
  = RegisterSchema reg {| micro.Subject := subject; micro.Data := data2 |}
  ∧ UpdateSchema reg {| micro.Subject := subject; micro.Data := data1 |}
    = UpdateSchema reg {| micro.Subject := subject; micro.Data := data2 |}.
Proof.
  intros Hd1 Hd2 Hsame.
  assert (∀ name, set_Name name schema1 = set_Name name schema2) as Hname.
  { intros name. unfold set_Name in *.
    injection Hsame as Hsubject Hrev Htype Hbody.
    by rewrite Hsubject, Hrev, Htype, Hbody. }
  unfold RegisterSchema, UpdateSchema. simpl. rewrite Hd1, Hd2.
  unfold request_name. simpl. by rewrite !Hname.
Qed.

(** X19: a request whose body does not decode, or whose schema cannot be
    encoded again, is answered with the error code 400 by [RegisterSchema]
    and [UpdateSchema] alike, and the store is not called; and whenever
    either answers with 400, the registry is as it was. *)
Theorem bad_request_not_stored reg r :
  (∀ err,
     json_Unmarshal (micro.Data r) = Err err
     ∨ (∃ schema, json_Unmarshal (micro.Data r) = Ok schema
                  ∧ json_Marshal (set_Name (request_name r) schema) = Err err) →
     RegisterSchema reg r = (reg, [ReqError "400" err])
     ∧ UpdateSchema reg r = (reg, [ReqError "400" err]))
  ∧ (error_code (RegisterSchema reg r).2 = Some "400" →
     (RegisterSchema reg r).1 = reg)
  ∧ (error_code (UpdateSchema reg r).2 = Some "400" →
     (UpdateSchema reg r).1 = reg).
Proof.
  unfold RegisterSchema, UpdateSchema. split_and!.
  - intros err [Hdec|(schema & Hdec & Henc)]; rewrite Hdec; [done|].
    by rewrite Henc.
  - destruct (json_Unmarshal (micro.Data r)) as [schema|]; [|done].
    destruct (json_Marshal _) as [data|]; [|done].
    by destruct (nats.Create _ _ _) as [kv' [rev|err]].
  - destruct (json_Unmarshal (micro.Data r)) as [schema|]; [|done].
    destruct (json_Marshal _) as [data|]; [|done].
    by destruct (nats.Put _ _ _) as [kv' [rev|err]].
Qed.

(** X20: each of the four endpoints answers every request exactly once,
    publishes nothing and never writes the cache; the traces of the three
    that call the store have no read and no write of the cache in them,
    and the trace of [GetSchema] has the one lookup of the requested
    name. *)
Theorem endpoints_answer_once reg r :
  Forall (fun tr => length (answered tr) = 1%nat
                    ∧ published tr = [] ∧ stored tr = [])
    [(RegisterSchema reg r).2; (UpdateSchema reg r).2;
     (UnregisterSchema reg r).2; (GetSchema reg r).2]
  ∧ Forall (fun tr => cache_accesses tr = [])
      [(RegisterSchema reg r).2; (UpdateSchema reg r).2;
       (UnregisterSchema reg r).2]
  ∧ cache_accesses (GetSchema reg r).2 = [MapLookup (request_name r)].
Proof.
  unfold RegisterSchema, UpdateSchema, UnregisterSchema, GetSchema.
  destruct (json_Unmarshal (micro.Data r)) as [schema|];
    [destruct (json_Marshal _) as [data|];
     [destruct (nats.Create _ _ _) as [kv1 [rev1|err1]];
      destruct (nats.Put _ _ _) as [kv2 [rev2|err2]]|]|];
    destruct (nats.Delete _ _) as [kv3 [err3|]];
    destruct (schemas reg !! request_name r);
    by repeat constructor.
Qed.

(** X21: a new registry has nothing cached: [GetSchema] answers 404 for
    every name, and a validation request on a subject with a dot is
    answered that no schema was found, nothing being published. *)
Theorem NewSchemaRegistry_empty (bucket : KV) r (order : list Schema)
    (m : nats.Msg) :
  (GetSchema (NewSchemaRegistry bucket) r).2
  = [MapLookup (request_name r); ReqError "404" "Not found"]
  ∧ (range_order (NewSchemaRegistry bucket) order →
     is_token (nats.Subject m) = false →
     let text := "could not find schema for subject "
                 +:+ strconv_Quote (governed_subject (nats.Subject m)) in
     trace (ValidatePayload (NewSchemaRegistry bucket) order m)
     = [RLock; MapRange; Println text; MsgRespond text; RUnlock]).
Proof.
  split.
  - unfold GetSchema. simpl. by rewrite lookup_empty.
  - intros Horder Hdot text. unfold range_order in Horder. simpl in Horder.
    rewrite map_to_list_empty in Horder. apply Permutation_nil_r in Horder.
    subst order.
    by rewrite (ValidatePayload_scan _ _ m (Split_dotted _ Hdot)).
Qed.

End EndpointFacts.

Lemma GetSchema_lookup_witness :
  (GetSchema numbers_registry
     {| micro.Subject := "$SCHEMA.GET.numbers"; micro.Data := "" |}).2
  = [MapLookup "numbers"; ReqRespondJSON (numbers_schema 1)]
  ∧ error_code (GetSchema numbers_registry
                  {| micro.Subject := "$SCHEMA.GET.letters"; micro.Data := "" |}).2
    = Some "404".
Proof.
  split.
  - apply (GetSchema_lookup (env := test_env) numbers_registry
             {| micro.Subject := "$SCHEMA.GET.numbers"; micro.Data := "" |}).
    simpl. by rewrite lookup_singleton_eq.
  - apply (GetSchema_lookup (env := test_env) numbers_registry
             {| micro.Subject := "$SCHEMA.GET.letters"; micro.Data := "" |}).
    simpl. by apply lookup_singleton_ne.
Defined.

Lemma body_name_ignored_witness :
  RegisterSchema (env := test_env) (NewSchemaRegistry empty_bucket)
    {| micro.Subject := "$SCHEMA.REGISTER.numbers";
       micro.Data := "mine;numbers.>;jsonschema;{type: number}" |}
  = RegisterSchema (env := test_env) (NewSchemaRegistry empty_bucket)
      {| micro.Subject := "$SCHEMA.REGISTER.numbers";
         micro.Data := ";numbers.>;jsonschema;{type: number}" |}.
Proof.
  by apply (body_name_ignored (env := test_env) (NewSchemaRegistry empty_bucket)
              "$SCHEMA.REGISTER.numbers" _ _
              (set_Name "mine" (numbers_schema 0))
              (set_Name "" (numbers_schema 0))).
Defined.

Lemma bad_request_not_stored_witness :
  UpdateSchema (env := test_env) numbers_registry
    {| micro.Subject := "$SCHEMA.UPDATE.numbers"; micro.Data := "" |}
  = (numbers_registry, [ReqError "400" "unexpected end of JSON input"]).
Proof.
  apply (bad_request_not_stored (env := test_env)). by left.
Defined.

Lemma NewSchemaRegistry_empty_witness :
  trace (ValidatePayload (env := test_env) (NewSchemaRegistry empty_bucket) []
           (validate_message "$SCHEMA.VALIDATE.numbers.foobar" "1"))
  = [RLock; MapRange;
     Println ("could not find schema for subject " +:+ test_Quote "numbers.foobar");
     MsgRespond ("could not find schema for subject " +:+ test_Quote "numbers.foobar");
     RUnlock].
Proof.
  apply (NewSchemaRegistry_empty (env := test_env) empty_bucket numbers_request).
  - unfold range_order. simpl. by rewrite map_to_list_empty.
  - reflexivity.
Defined.
